(** * dicom_pseudon: the rule-evaluation and identifier-resolution pipeline

    A shallow embedding of [dicom_pseudon.py] and the properties of its
    quarantine rules, whitelist filter, identifier index, reconciliation
    step and orchestrator.

    Conventions of the embedding.
    - A Python [str] is a [string]; one [ascii] stands for one character.
      Case folding and whitespace are the ASCII ones.
    - A Python call that may raise returns a [result]: [Ok v] or
      [Raise e], with [e] the exception class.
    - Mutable objects (the dataset, the index, the log, the file system)
      are threaded explicitly: a method that mutates returns the new value. *)

From Stdlib Require Import Ascii String NArith ZArith Permutation.
From stdpp Require Import base list gmap strings sorting.

#[local] Open Scope N_scope.
#[local] Set Warnings "-clear-no-such-hyp".

(** ** Python strings *)

Module Py.

(** [c.lower()] on one ASCII character. *)
Definition lower_char (c : ascii) : ascii :=
  let n := N_of_ascii c in
  if (65 <=? n) && (n <=? 90) then ascii_of_N (n + 32) else c.

(** [s.lower()] *)
Fixpoint lower (s : string) : string :=
  match s with
  | EmptyString => EmptyString
  | String c s' => String (lower_char c) (lower s')
  end.

(** [c.isspace()] for an ASCII character: tab, line feed, vertical tab,
    form feed, carriage return, the four separators 0x1c-0x1f, space. *)
Definition isspace (c : ascii) : bool :=
  let n := N_of_ascii c in
  ((9 <=? n) && (n <=? 13)) || ((28 <=? n) && (n <=? 32)).

Fixpoint lstrip (s : string) : string :=
  match s with
  | EmptyString => EmptyString
  | String c s' => if isspace c then lstrip s' else s
  end.

Fixpoint rstrip (s : string) : string :=
  match s with
  | EmptyString => EmptyString
  | String c s' =>
      match rstrip s' with
      | EmptyString => if isspace c then EmptyString else String c EmptyString
      | r => String c r
      end
  end.

(** [s.strip()] *)
Definition strip (s : string) : string := rstrip (lstrip s).

(** [s.startswith(p)] *)
Fixpoint startswith (s p : string) : bool :=
  match p, s with
  | EmptyString, _ => true
  | String _ _, EmptyString => false
  | String a p', String b s' => Ascii.eqb a b && startswith s' p'
  end.

(** [sub in s] *)
Fixpoint contains (sub s : string) : bool :=
  startswith s sub ||
  match s with
  | EmptyString => false
  | String _ s' => contains sub s'
  end.

(** [x in l] for a list of strings *)
Definition in_list (x : string) (l : list string) : bool :=
  existsb (String.eqb x) l.

(** [re.sub('[-_,.]', '', s)] *)
Fixpoint drop_punct (s : string) : string :=
  match s with
  | EmptyString => EmptyString
  | String c s' =>
      if (Ascii.eqb c "-" || Ascii.eqb c "_" || Ascii.eqb c "," || Ascii.eqb c ".")%char
      then drop_punct s' else String c (drop_punct s')
  end.

(** [re.sub(' +', ' ', s)]: every maximal run of spaces becomes one space. *)
Fixpoint squeeze_spaces (s : string) : string :=
  match s with
  | EmptyString => EmptyString
  | String c s' =>
      if Ascii.eqb c " "%char
      then match s' with
           | String d _ => if Ascii.eqb d " "%char then squeeze_spaces s'
                           else String c (squeeze_spaces s')
           | EmptyString => String c EmptyString
           end
      else String c (squeeze_spaces s')
  end.

(** [sep.join(l)] *)
Fixpoint join (sep : string) (l : list string) : string :=
  match l with
  | [] => EmptyString
  | [x] => x
  | x :: l' => x +:+ sep +:+ join sep l'
  end.

(** The exception classes the program can meet. *)
Inductive exn :=
| AttributeError
| KeyError
| ValueError (msg : string)
| Exception (msg : string)
| OperationalError
| ProgrammingError
| InterfaceError.

Inductive result (A : Type) :=
| Ok (a : A)
| Raise (e : exn).
Arguments Ok {A} a.
Arguments Raise {A} e.

Definition bind {A B} (m : result A) (k : A -> result B) : result B :=
  match m with
  | Ok a => k a
  | Raise e => Raise e
  end.

End Py.

Import Py.

#[global] Instance result_ret : MRet result := @Ok.
#[global] Instance result_bind : MBind result := fun A B k m => Py.bind m k.

(** The expression both the whitelist loader and the whitelist lookup apply:
    [re.sub(' +', ' ', re.sub('[-_,.]', '', s.strip().lower()))]. *)
Definition normalize (s : string) : string :=
  squeeze_spaces (drop_punct (lower (strip s))).

(** ** Records (datasets) *)

(** Modelled from the spec: the record type of the external format reader
    (section 3, "Record"), which is not part of src/: a mapping from a
    (group, element) tag to an attribute with a value that is a scalar
    (possibly null) or multi-valued.  The reader splits a stored value
    on its separator and keeps a lone value as a scalar, so a
    multi-valued attribute has at least two members. *)
Definition Tag : Type := N * N.

Inductive Value :=
| Single (v : option string)
| Multi (v1 v2 : option string) (vs : list (option string)).

Record DataElement := mkElem {
  tag : Tag;
  name : string;
  value : Value
}.

Abbreviation Dataset := (gmap Tag (string * Value)).

(** [e.VM], the value multiplicity. *)
Definition VM (v : Value) : nat :=
  match v with
  | Single _ => 1
  | Multi _ _ vs => 2 + length vs
  end.

(** What [for m in e] runs over after
    [if e.VM == 1: e = [e.value]]: the value itself when there is one,
    the members otherwise. *)
Definition members (v : Value) : list (option string) :=
  match v with
  | Single x => [x]
  | Multi a b vs => a :: b :: vs
  end.

(** [str(x)] for a scalar. *)
Definition str_scalar (x : option string) : string :=
  match x with
  | Some s => s
  | None => "None"
  end.

(** [str(e.value)]; a multi-value prints as a bracketed, quoted list. *)
Definition py_str (v : Value) : string :=
  match v with
  | Single x => str_scalar x
  | Multi a b vs => "['" +:+ join "', '" (map str_scalar (a :: b :: vs)) +:+ "']"
  end.

(** [e.value.strip()]: only a string has the method. *)
Definition value_strip (v : Value) : result string :=
  match v with
  | Single (Some s) => Ok (strip s)
  | _ => Raise AttributeError
  end.

(** [tag in ds] *)
Definition has (t : Tag) (ds : Dataset) : bool := bool_decide (is_Some (ds !! t)).

(** [ds[t]] *)
Definition getitem (ds : Dataset) (t : Tag) : result DataElement :=
  match ds !! t with
  | Some (n, v) => Ok (mkElem t n v)
  | None => Raise KeyError
  end.

(** [del ds[t]] *)
Definition delitem (ds : Dataset) (t : Tag) : Dataset := delete t ds.

(** ** Module constants *)

Definition DE_IDENTIFICATION_METHOD : string :=
  "Pseudonymized by The Cancer Registry of Norway".

Definition ALLOWED_FILE_META : gmap Tag N :=
  list_to_map
    [ ((0x2, 0x0), 1); ((0x2, 0x1), 1); ((0x2, 0x2), 1); ((0x2, 0x3), 1);
      ((0x2, 0x10), 1); ((0x2, 0x12), 1); ((0x2, 0x13), 1) ].

Definition ACCESSION_NUMBER : Tag := (0x8, 0x50).
Definition SERIES_DESCR : Tag := (0x8, 0x103E).
Definition MODALITY : Tag := (0x8, 0x60).
Definition BURNT_IN : Tag := (0x28, 0x301).
Definition IMAGE_TYPE : Tag := (0x8, 0x8).
Definition MANUFACTURER : Tag := (0x8, 0x70).
Definition MANUFACTURER_MODEL_NAME : Tag := (0x8, 0x1090).

(** ** The configuration held by a [DicomPseudon] object *)

Record DicomPseudon := mkPseudon {
  white_list : gmap Tag (list string);
  quarantine : string;
  log_file : option string;
  modalities : list string
}.

(** [__init__] lower-cases the modality list it is given. *)
Definition init_modalities (given : list string) : list string := map lower given.

Definition default_modalities : list string := init_modalities ["mr"; "ct"].

(** ** Quarantine rules: [check_quarantine] *)

Definition Verdict : Type := bool * string.

(** Lines 151-156. [None] stands for falling through to the next [if]. *)
Definition series_descr_rule (ds : Dataset) : result (option Verdict) :=
  match ds !! SERIES_DESCR with
  | Some (_, Single None) | None => Ok None
  | Some (_, v) =>
      s ← value_strip v;
      let series_desc := lower s in
      if contains "patient protocol" series_desc then Ok (Some (true, "patient protocol"))
      else if contains "save" series_desc then Ok (Some (true, "Likely screen capture"))
      else Ok None
  end.

(** Lines 158-164. *)
Definition modality_allowed (self : DicomPseudon) (m : option string) : bool :=
  match m with
  | None => false
  | Some s => in_list (lower s) (modalities self)
  end.

Definition modality_rule (self : DicomPseudon) (ds : Dataset) : result (option Verdict) :=
  match ds !! MODALITY with
  | Some (_, v) =>
      if forallb (modality_allowed self) (members v) then Ok None
      else Ok (Some (true, "modality not allowed"))
  | None => Ok None
  end.

(** Lines 166-167. *)
Definition modality_missing_rule (ds : Dataset) : result (option Verdict) :=
  if negb (has MODALITY ds) then Ok (Some (true, "Modality missing")) else Ok None.

(** Lines 169-172. *)
Definition burnt_in_rule (ds : Dataset) : result (option Verdict) :=
  match ds !! BURNT_IN with
  | Some (_, Single None) | None => Ok None
  | Some (_, v) =>
      s ← value_strip v;
      if in_list (lower s) ["yes"; "y"] then Ok (Some (true, "burnt-in data"))
      else Ok None
  end.

(** Lines 174-180. *)
Definition image_type_save (i : option string) : bool :=
  match i with
  | None => false
  | Some s => contains "save" (lower (strip s))
  end.

Definition image_type_rule (ds : Dataset) : result (option Verdict) :=
  match ds !! IMAGE_TYPE with
  | Some (_, v) =>
      if existsb image_type_save (members v) then Ok (Some (true, "Likely screen capture"))
      else Ok None
  | None => Ok None
  end.

(** Lines 182-185. *)
Definition manufacturer_rule (ds : Dataset) : result (option Verdict) :=
  match ds !! MANUFACTURER with
  | Some (_, v) =>
      s ← value_strip v;
      let manufacturer := lower s in
      if contains "north american imaging, inc" manufacturer || contains "pacsgear" manufacturer
      then Ok (Some (true, "Manufacturer is suspect"))
      else Ok None
  | None => Ok None
  end.

(** Lines 187-190. *)
Definition model_name_rule (ds : Dataset) : result (option Verdict) :=
  match ds !! MANUFACTURER_MODEL_NAME with
  | Some (_, v) =>
      s ← value_strip v;
      if contains "the dicom box" (lower s) then Ok (Some (true, "Manufacturer model name is suspect"))
      else Ok None
  | None => Ok None
  end.

(** One [if] block after the other: a block that returns ends the
    function, a block that raises ends it with the exception. *)
Definition or_else (r : result (option Verdict)) (k : result Verdict) : result Verdict :=
  match r with
  | Ok (Some v) => Ok v
  | Ok None => k
  | Raise e => Raise e
  end.

Definition check_quarantine (self : DicomPseudon) (ds : Dataset) : result Verdict :=
  or_else (series_descr_rule ds) (
  or_else (modality_rule self ds) (
  or_else (modality_missing_rule ds) (
  or_else (burnt_in_rule ds) (
  or_else (image_type_rule ds) (
  or_else (manufacturer_rule ds) (
  or_else (model_name_rule ds) (
  Ok (false, EmptyString)))))))).

(** ** The identifier index: class [Index] over an SQLite table *)

Module Index.

(** One row of [accession_numbers]:
    [(id INTEGER PRIMARY KEY AUTOINCREMENT, original, serial, UNIQUE(original))].
    [serial] is NULL until it is set. *)
Record Row := mkRow {
  id : Z;
  original : string;
  serial : option string
}.

(** The database behind a connection: whether the connection was
    closed, and the table, absent until [CREATE_TABLE] has run. *)
Record t := mkIndex {
  closed : bool;
  table : option (list Row)
}.

(** SQL leaves the order of a [SELECT] without [ORDER BY] to the engine.
    [scan] is the order in which the engine visits the rows of the
    table; all that is known of it is that it visits every row once. *)
Class Sqlite := {
  scan : list Row -> list Row;
  scan_perm : forall rows, scan rows ≡ₚ rows
}.

(** SQLite's [LIKE] with its default settings: [%] matches any run of
    characters, [_] matches one character, any other character matches
    itself without regard to ASCII case. *)
Fixpoint like (pattern : string) : string -> bool :=
  match pattern with
  | EmptyString => fun s => match s with EmptyString => true | _ => false end
  | String p pattern' =>
      if Ascii.eqb p "%"%char then
        fix any (s : string) : bool :=
          like pattern' s || match s with
                             | EmptyString => false
                             | String _ s' => any s'
                             end
      else if Ascii.eqb p "_"%char then
        fun s => match s with
                 | EmptyString => false
                 | String _ s' => like pattern' s'
                 end
      else
        fun s => match s with
                 | EmptyString => false
                 | String c s' => Ascii.eqb (lower_char p) (lower_char c) && like pattern' s'
                 end
  end.

(** [__init__]: a connection to a database file that has no table yet. *)
Definition connect : t := mkIndex false None.

Definition close (idx : t) : t := mkIndex true (table idx).

(** AUTOINCREMENT: larger than every id in the table (no row is ever
    deleted). *)
Definition next_id (rows : list Row) : Z := (foldr Z.max 0 (id <$> rows) + 1)%Z.

(** The statements, on the rows of the table. *)
Definition GET `{Sqlite} (rows : list Row) (o : string) : list (option string) :=
  serial <$> filter (fun r => original r = o) (scan rows).

Definition SEARCH `{Sqlite} (rows : list Row) (pattern : string) : list string :=
  original <$> filter (fun r => like pattern (original r)) (scan rows).

Definition INSERT (rows : list Row) (o : string) : list Row :=
  if decide (o ∈ original <$> rows) then rows
  else rows ++ [mkRow (next_id rows) o None].

Definition UPDATE (rows : list Row) (s o : string) : list Row :=
  (fun r => if decide (original r = o) then mkRow (id r) (original r) (Some s) else r) <$> rows.

(** Any statement on a closed connection raises. *)
Definition table_exists (idx : t) : result bool :=
  if closed idx then Raise ProgrammingError
  else Ok (bool_decide (is_Some (table idx))).

Definition get `{Sqlite} (idx : t) (o : string) : result (option string) :=
  ex ← table_exists idx;
  if negb ex then Ok None
  else
    let results := GET (default [] (table idx)) o in
    match results with
    | r :: _ => Ok r
    | [] => Ok None
    end.

Definition search `{Sqlite} (idx : t) (pattern : string) : result (option string) :=
  ex ← table_exists idx;
  if negb ex then Ok None
  else
    let results := SEARCH (default [] (table idx)) pattern in
    match results with
    | r :: _ => Ok (Some r)
    | [] => Ok None
    end.

Definition insert (idx : t) (o : string) : result t :=
  ex ← table_exists idx;
  let idx := if negb ex then mkIndex (closed idx) (Some []) else idx in
  Ok (mkIndex (closed idx) (Some (INSERT (default [] (table idx)) o))).

Definition update (idx : t) (o s : string) : result t :=
  if closed idx then Raise ProgrammingError
  else match table idx with
       | None => Raise OperationalError
       | Some rows => Ok (mkIndex (closed idx) (Some (UPDATE rows s o)))
       end.

(** [get] when the argument is the value of an attribute rather than a
    string: NULL is equal to no stored value, and a multi-value cannot
    be bound to the statement's parameter. *)
Definition get_value `{Sqlite} (idx : t) (v : Value) : result (option string) :=
  match v with
  | Single (Some o) => get idx o
  | Single None => _ ← table_exists idx; Ok None
  | Multi _ _ _ => ex ← table_exists idx; if negb ex then Ok None else Raise InterfaceError
  end.

(** The state-changing calls a client can make, and a history of them.
    A call that raises leaves the database as it was. *)
Inductive op :=
| Insert (o : string)
| Update (o s : string)
| Close.

Definition apply (idx : t) (c : op) : t :=
  match c with
  | Insert o => match insert idx o with Ok idx' => idx' | Raise _ => idx end
  | Update o s => match update idx o s with Ok idx' => idx' | Raise _ => idx end
  | Close => close idx
  end.

Definition run (cs : list op) : t := foldl apply connect cs.

Definition touches (x : string) (c : op) : bool :=
  match c with
  | Insert o | Update o _ => bool_decide (o = x)
  | Close => false
  end.

Definition rows (idx : t) : list Row := default [] (table idx).

Definition originals (idx : t) : list string := original <$> rows idx.

(** A fragment without the two wildcard characters of [LIKE]. *)
Fixpoint plain (f : string) : bool :=
  match f with
  | EmptyString => true
  | String a f' => negb (Ascii.eqb a "%"%char) && negb (Ascii.eqb a "_"%char) && plain f'
  end.

(** The row order of the table itself, a scan order for examples. *)
Definition rowid_order : Sqlite := {| scan := fun rows => rows; scan_perm := fun rows => reflexivity rows |}.

End Index.

(** ** The mutable world of a run *)

Inductive Level := INFO | WARNING | ERROR.

(** What the object and the file system hold while the program runs:
    the index, the records sent to the logger, whether the log handler
    is still open, the directories that exist, the files copied by
    [shutil.copyfile] and the datasets written by [save_as]. *)
Record State := mkState {
  index : Index.t;
  log : list (Level * string);
  log_open : bool;
  dirs : list string;
  copied : list (string * string);
  saved : list (string * Dataset)
}.

Definition set_index (idx : Index.t) (st : State) : State :=
  mkState idx (log st) (log_open st) (dirs st) (copied st) (saved st).

Definition logger (lvl : Level) (msg : string) (st : State) : State :=
  mkState (index st) (log st ++ [(lvl, msg)]) (log_open st) (dirs st) (copied st) (saved st).

(** [if not os.path.exists(d): os.makedirs(d)] *)
Definition ensure_dir (d : string) (st : State) : State :=
  if decide (d ∈ dirs st) then st
  else mkState (index st) (log st) (log_open st) (d :: dirs st) (copied st) (saved st).

Definition copyfile (src dst : string) (st : State) : State :=
  mkState (index st) (log st) (log_open st) (dirs st) (copied st ++ [(src, dst)]) (saved st).

Definition save_as (path : string) (ds : Dataset) (st : State) : State :=
  mkState (index st) (log st) (log_open st) (dirs st) (copied st) (saved st ++ [(path, ds)]).

Definition truthy (s : option string) : bool :=
  match s with
  | Some (String _ _) => true
  | _ => false
  end.

Definition close_all (self : DicomPseudon) (st : State) : State :=
  let lo := if truthy (log_file self) then false else log_open st in
  mkState (Index.close (index st)) (log st) lo (dirs st) (copied st) (saved st).

(** The outside of the program: the files under the input directory and
    what reading and writing them does.  [tree] lists, in the order of
    [os.walk], each file as the part of its directory path that follows
    the top directory and its name.  The two failures the program
    handles are a read or a write that raises [IOError]; the other calls
    on the file system are taken to succeed. *)
Inductive ReadResult :=
| ReadOk (ds : Dataset)
| ReadIOError
| ReadInvalidDicom.

Record World := mkWorld {
  tree : list (string * string);
  read_file : string -> ReadResult;
  save_as_ok : string -> bool;
  normpath : string -> string
}.

Definition os_walk (w : World) (top : string) : list (string * string) :=
  (fun en => (top +:+ en.1, en.2)) <$> tree w.

(** [os.path.join(a, b)] *)
Definition endswith_slash (a : string) : bool :=
  match last (list_ascii_of_string a) with
  | Some c => Ascii.eqb c "/"%char
  | None => false
  end.

Definition is_empty (a : string) : bool :=
  match a with
  | EmptyString => true
  | _ => false
  end.

Definition path_join (a b : string) : string :=
  if startswith b "/" then b
  else if is_empty a || endswith_slash a then a +:+ b
  else a +:+ "/" +:+ b.

(** [os.path.basename(p)] *)
Fixpoint basename (p : string) : string :=
  match p with
  | EmptyString => EmptyString
  | String c p' =>
      if contains "/" p' then basename p'
      else if Ascii.eqb c "/"%char then p' else p
  end.

(** ** Whitelist filter *)

Definition white_list_handler (self : DicomPseudon) (e : DataElement) (st : State)
  : State * bool :=
  match white_list self !! tag e with
  | Some ((_ :: _) as allowed) =>
      if negb (in_list "*" allowed)
         && negb (in_list (normalize (py_str (value e))) allowed)
      then (logger INFO (py_str (value e) +:+ " not in white list for " +:+ name e) st, false)
      else (st, true)
  | _ => (st, false)
  end.

Definition file_meta_allowed (t : Tag) : bool :=
  match ALLOWED_FILE_META !! t with
  | Some n => negb (n =? 0)
  | None => false
  end.

(** [clean(ds, e)]: the callback deletes [e] from [ds] unless a rule keeps
    it, and returns whether it kept it. *)
Definition clean (self : DicomPseudon) (ds : Dataset) (e : DataElement) (st : State)
  : Dataset * State * result bool :=
  if decide (tag e = ACCESSION_NUMBER) then (ds, st, Ok true)
  else if file_meta_allowed (tag e) then (ds, st, Ok true)
  else
    let '(st, white_listed) := white_list_handler self e st in
    if negb white_listed then
      match ds !! tag e with
      | Some _ => (delitem ds (tag e), st, Ok white_listed)
      | None => (ds, st, Raise KeyError)
      end
    else (ds, st, Ok white_listed).

(** Tags are ordered as the 32-bit numbers they are. *)
Definition tag_le (a b : Tag) : Prop := a.1 * 65536 + a.2 <= b.1 * 65536 + b.2.

#[global] Instance tag_le_dec a b : Decision (tag_le a b) := N.le_dec _ _.

Definition sorted_tags (ds : Dataset) : list Tag :=
  merge_sort tag_le (fst <$> map_to_list ds).

(** [ds.walk(callback)]: the callback is called on every attribute of a
    snapshot of the tags, in tag order; what it returns is not used. *)
Fixpoint walk_tags {A} (callback : Dataset -> DataElement -> State -> Dataset * State * result A)
    (taglist : list Tag) (ds : Dataset) (st : State) : Dataset * State * result () :=
  match taglist with
  | [] => (ds, st, Ok ())
  | t :: taglist' =>
      match getitem ds t with
      | Raise e => (ds, st, Raise e)
      | Ok data_element =>
          match callback ds data_element st with
          | (ds', st', Ok _) => walk_tags callback taglist' ds' st'
          | (ds', st', Raise e) => (ds', st', Raise e)
          end
      end
  end.

Definition walk {A} (callback : Dataset -> DataElement -> State -> Dataset * State * result A)
    (ds : Dataset) (st : State) : Dataset * State * result () :=
  walk_tags callback (sorted_tags ds) ds st.

(** ** Identifier resolution: [pseudonymize] *)

(** The statement [ds.walk(partial(self.clean))] of [pseudonymize]. *)
Definition apply_filter (self : DicomPseudon) (ds : Dataset) (st : State)
  : Dataset * State * result () :=
  walk (clean self) ds st.

Definition pseudonymize `{Index.Sqlite} (self : DicomPseudon) (ds : Dataset) (st : State)
  : Dataset * State * result string :=
  match getitem ds ACCESSION_NUMBER with
  | Raise e => (ds, st, Raise e)
  | Ok e =>
      let accession_num := value e in
      match Index.get_value (index st) accession_num with
      | Raise e => (ds, st, Raise e)
      | Ok None =>
          (ds, st, Raise (ValueError ("No serial number for accession number "
                                      +:+ py_str accession_num)))
      | Ok (Some serial_num) =>
          match apply_filter self ds st with
          | (ds', st', Ok _) => (ds', st', Ok serial_num)
          | (ds', st', Raise e) => (ds', st', Raise e)
          end
      end
  end.

(** [str(e)] for a caught exception. *)
Definition exn_str (e : exn) : string :=
  match e with
  | ValueError msg | Exception msg => msg
  | _ => EmptyString
  end.

(** ** Quarantine and the directory walk *)

Definition destination (w : World) (source dest root : string) : result string :=
  if startswith dest root
  then Raise (Exception "Destination directory cannot be inside or equal to source directory")
  else if negb (startswith source root)
  then Raise (Exception "The file to be moved must be in the root directory")
  else Ok (normpath w dest).

Definition quarantine_file (w : World) (self : DicomPseudon)
    (filepath ident_dir reason : string) (st : State) : result State :=
  full_quarantine_dir ← destination w filepath (quarantine self) ident_dir;
  let st := ensure_dir full_quarantine_dir st in
  let quarantine_name := path_join full_quarantine_dir (basename filepath) in
  let st := logger INFO (filepath +:+ " will be moved to quarantine directory due to: " +:+ reason) st in
  Ok (copyfile filepath quarantine_name st).

(** What the body of a loop does with the state it is given: go on to
    the next iteration, return from the enclosing function, or raise. *)
Inductive Flow :=
| Continue (st : State)
| Return (v : bool) (st : State)
| Throw (e : exn) (st : State).

(** What the generator [walk_dicoms] does with one file of the walk. *)
Inductive Gen :=
| GSkip (st : State)
| GYield (ds : Dataset) (source_path filename : string) (st : State)
| GReturn (v : bool) (st : State)
| GRaise (e : exn) (st : State).

Definition walk_dicoms_file (w : World) (self : DicomPseudon) (ident_dir : string)
    (quarantine : bool) (root filename : string) (st : State) : Gen :=
  if startswith filename "." then GSkip st
  else
    let source_path := path_join root filename in
    match read_file w source_path with
    | ReadOk ds => GYield ds source_path filename st
    | ReadIOError =>
        let st := logger ERROR ("Error reading file " +:+ source_path) st in
        let st := close_all self st in
        GReturn false st
    | ReadInvalidDicom =>
        if quarantine then
          match quarantine_file w self source_path ident_dir "Could not read DICOM file." st with
          | Ok st' => GSkip st'
          | Raise e => GRaise e st
          end
        else GSkip st
    end.

(** [for ds, source_path, filename in self.walk_dicoms(ident_dir, quarantine): body].
    The generator runs up to its next [yield] each time the loop asks
    for an item.  A [return] inside a generator ends the iteration; the
    [for] statement does not see the value returned. *)
Fixpoint for_walk_dicoms (w : World) (self : DicomPseudon) (ident_dir : string)
    (quarantine : bool) (body : Dataset -> string -> string -> State -> Flow)
    (files : list (string * string)) (st : State) : Flow :=
  match files with
  | [] => Continue st
  | (root, filename) :: files' =>
      match walk_dicoms_file w self ident_dir quarantine root filename st with
      | GSkip st' => for_walk_dicoms w self ident_dir quarantine body files' st'
      | GYield ds source_path fname st' =>
          match body ds source_path fname st' with
          | Continue st'' => for_walk_dicoms w self ident_dir quarantine body files' st''
          | flow => flow
          end
      | GReturn _ st' => Continue st'
      | GRaise e st' => Throw e st'
      end
  end.

(** ** Reconciliation: the linkage-list loop of [create_index] (lines 263-284) *)

Definition duplicate_warning (invitation_num : string) : string :=
  "Invitation number " +:+ invitation_num +:+ " appears in links file multiple times".

Definition not_found_warning (invitation_num : string) : string :=
  "Could not find accession number for invitation number " +:+ invitation_num.

(** [lines] are the rows the csv reader yields; [invitation_num_set] is
    the set of fragments met so far. *)
Fixpoint reconcile `{Index.Sqlite} (invitation_num_set : gset string)
    (lines : list (list string)) (st : State) : State * result () :=
  match lines with
  | [] => (st, Ok ())
  | [invitation_num; serial_num] :: lines' =>
      if decide (invitation_num ∈ invitation_num_set) then
        reconcile invitation_num_set lines' (logger WARNING (duplicate_warning invitation_num) st)
      else
        let invitation_num_set := {[invitation_num]} ∪ invitation_num_set in
        match Index.search (index st) ("%" +:+ invitation_num +:+ "%") with
        | Raise e => (st, Raise e)
        | Ok None =>
            reconcile invitation_num_set lines'
              (logger WARNING (not_found_warning invitation_num) st)
        | Ok (Some accession_num) =>
            match Index.update (index st) accession_num serial_num with
            | Raise e => (st, Raise e)
            | Ok idx => reconcile invitation_num_set lines' (set_index idx st)
            end
        end
  | [] :: _ => (st, Raise (ValueError "not enough values to unpack (expected 2, got 0)"))
  | [_] :: _ => (st, Raise (ValueError "not enough values to unpack (expected 2, got 1)"))
  | _ :: _ => (st, Raise (ValueError "too many values to unpack (expected 2)"))
  end.

Definition create_index_links `{Index.Sqlite} (skip_first_line : bool)
    (lines : list (list string)) (st : State) : State * result () :=
  reconcile ∅ (if skip_first_line then tail lines else lines) st.

(** ** The orchestrator: [run] *)

Definition PATIENT_IDENTITY_REMOVED : Tag := (0x12, 0x62).
Definition DE_IDENTIFICATION_METHOD_TAG : Tag := (0x12, 0x63).

(** [ds[t].value = v] *)
Definition set_value (ds : Dataset) (t : Tag) (v : Value) : result Dataset :=
  match ds !! t with
  | Some (n, _) => Ok (<[t := (n, v)]> ds)
  | None => Raise KeyError
  end.

Definition resolution_reason (e : exn) : string :=
  "Error running pseudonymize function. Error was: " +:+ exn_str e.

(** The body of the loop of [run], for one item of the generator. *)
Definition run_body `{Index.Sqlite} (w : World) (self : DicomPseudon)
    (ident_dir clean_dir : string)
    (ds : Dataset) (source_path filename : string) (st : State) : Flow :=
  match check_quarantine self ds with
  | Raise e => Throw e st
  | Ok (true, reason) =>
      match quarantine_file w self source_path ident_dir reason st with
      | Ok st' => Continue st'
      | Raise e => Throw e st
      end
  | Ok (false, _) =>
      match pseudonymize self ds st with
      | (_, st, Raise (ValueError msg)) =>
          match quarantine_file w self source_path ident_dir
                  (resolution_reason (ValueError msg)) st with
          | Ok st' => Continue st'
          | Raise e => Throw e st
          end
      | (_, st, Raise e) => Throw e st
      | (ds, st, Ok serial_num) =>
          let rel_destination_dir := path_join clean_dir serial_num in
          match destination w source_path rel_destination_dir ident_dir with
          | Raise e => Throw e st
          | Ok destination_dir =>
              let st := ensure_dir destination_dir st in
              match set_value ds ACCESSION_NUMBER (Single (Some serial_num)) with
              | Raise e => Throw e st
              | Ok ds =>
                  let ds := <[PATIENT_IDENTITY_REMOVED :=
                                ("Patient Identity Removed", Single (Some "YES"))]> ds in
                  let ds := <[DE_IDENTIFICATION_METHOD_TAG :=
                                ("De-identification Method",
                                 Single (Some DE_IDENTIFICATION_METHOD))]> ds in
                  let clean_name := path_join destination_dir filename in
                  if save_as_ok w clean_name then Continue (save_as clean_name ds st)
                  else
                    let st := logger ERROR ("Error writing file " +:+ clean_name) st in
                    let st := close_all self st in
                    Return false st
              end
          end
      end
  end.

Definition run `{Index.Sqlite} (w : World) (self : DicomPseudon)
    (ident_dir clean_dir : string) (st : State) : State * result bool :=
  match for_walk_dicoms w self ident_dir true (run_body w self ident_dir clean_dir)
          (os_walk w ident_dir) st with
  | Continue st' => (close_all self st', Ok true)
  | Return v st' => (st', Ok v)
  | Throw e st' => (st', Raise e)
  end.

(** ** Notions used to state the properties *)

(** The reasons the rules after the modality rules can give. *)
Definition later_reasons : list string :=
  ["burnt-in data"; "Likely screen capture"; "Manufacturer is suspect";
   "Manufacturer model name is suspect"].

(** The file-meta attributes that are always kept: group length, version,
    SOP class and instance UIDs, transfer syntax, implementation class
    and version. *)
Definition format_critical (t : Tag) : Prop :=
  t ∈ [(0x2, 0x0); (0x2, 0x1); (0x2, 0x2); (0x2, 0x3); (0x2, 0x10); (0x2, 0x12); (0x2, 0x13)].

(** The whitelist allows a value for a tag: the tag has an entry, and the
    entry holds the wildcard or the normalized value. *)
Definition whitelist_allows (wl : gmap Tag (list string)) (t : Tag) (v : Value) : Prop :=
  exists allowed, wl !! t = Some allowed /\
                  ("*" ∈ allowed \/ normalize (py_str v) ∈ allowed).

Definition may_stay (self : DicomPseudon) (t : Tag) (v : Value) : Prop :=
  t = ACCESSION_NUMBER \/ format_critical t \/ whitelist_allows (white_list self) t v.

(** What [clean] decides for an attribute, apart from what it logs. *)
Definition white_listed (self : DicomPseudon) (t : Tag) (v : Value) : bool :=
  match white_list self !! t with
  | Some ((_ :: _) as allowed) => in_list "*" allowed || in_list (normalize (py_str v)) allowed
  | _ => false
  end.

Definition keeps (self : DicomPseudon) (t : Tag) (v : Value) : bool :=
  bool_decide (t = ACCESSION_NUMBER) || file_meta_allowed t || white_listed self t v.

(** The fragments of the rows of a linkage list. *)
Definition fragments (lines : list (list string)) : gset string :=
  list_to_set (omap head lines).

(** The world with another listing of the input directory. *)
Definition with_tree (files : list (string * string)) (w : World) : World :=
  mkWorld files (read_file w) (save_as_ok w) (normpath w).

(** What [quarantine_file] leaves when the quarantine directory is valid. *)
Definition quarantined (w : World) (self : DicomPseudon) (filepath reason : string)
    (st : State) : State :=
  let full_quarantine_dir := normpath w (quarantine self) in
  copyfile filepath (path_join full_quarantine_dir (basename filepath))
    (logger INFO (filepath +:+ " will be moved to quarantine directory due to: " +:+ reason)
       (ensure_dir full_quarantine_dir st)).

Definition no_serial_message (v : Value) : string :=
  "No serial number for accession number " +:+ py_str v.

(** ** Sample data *)

Definition default_self : DicomPseudon :=
  mkPseudon {[ SERIES_DESCR := ["*"] ]} "quarantine" None default_modalities.

Definition ds_save_screen : Dataset :=
  {[ SERIES_DESCR := ("Series Description", Single (Some "Save Screen"));
     MODALITY := ("Modality", Single (Some "CT")) ]}.

Definition ds_protocol_save : Dataset :=
  {[ SERIES_DESCR := ("Series Description", Single (Some "Patient Protocol save"));
     MODALITY := ("Modality", Single (Some "CT")) ]}.

Definition ds_no_modality : Dataset :=
  {[ ACCESSION_NUMBER := ("Accession Number", Single (Some "A1")) ]}.

Definition ds_us : Dataset :=
  {[ MODALITY := ("Modality", Single (Some "US")) ]}.

(** A fresh state: a connection without a table, an empty log. *)
Definition st0 : State := mkState Index.connect [] true [] [] [].

(** An index with the table created and one row, for "Y". *)
Definition idx_y : Index.t := Index.run [Index.Insert "Y"].

(** An index with one row, for "ABC". *)
Definition idx_abc : Index.t := Index.run [Index.Insert "ABC"].

(** An index with one row "A1", its serial not yet set. *)
Definition idx_a1 : Index.t := Index.run [Index.Insert "A1"].

(** A state whose index holds the original "A123B", and the index after
    its serial has been set to "S1". *)
Definition idx_frag : Index.t := Index.run [Index.Insert "A123B"].
Definition st_frag : State := set_index idx_frag st0.
Definition idx_frag_s1 : Index.t :=
  Index.run [Index.Insert "A123B"; Index.Update "A123B" "S1"].

(** A record that passes the quarantine rules, with identifier "A1". *)
Definition ds_a1 : Dataset :=
  {[ ACCESSION_NUMBER := ("Accession Number", Single (Some "A1"));
     MODALITY := ("Modality", Single (Some "CT")) ]}.

(** An input directory "in" with two files that hold that record. *)
Definition w_a1 : World :=
  mkWorld [(EmptyString, "a1.dcm"); ("/sub", "b2.dcm")]
    (fun _ => ReadOk ds_a1) (fun _ => true) (fun p => p).

(** The same directory when the first file cannot be read. *)
Definition w_read_error : World :=
  mkWorld [(EmptyString, "a1.dcm"); ("/sub", "b2.dcm")]
    (fun p => if String.eqb p "in/a1.dcm" then ReadIOError else ReadOk ds_a1)
    (fun _ => true) (fun p => p).

(** The same directory when no output file can be written. *)
Definition w_write_error : World :=
  mkWorld [(EmptyString, "a1.dcm"); ("/sub", "b2.dcm")]
    (fun _ => ReadOk ds_a1) (fun _ => false) (fun p => p).

(** A state whose index maps "A1" to the serial "S1". *)
Definition st_s1 : State :=
  set_index (Index.run [Index.Insert "A1"; Index.Update "A1" "S1"]) st0.





(** ** Notions and sample data for the further properties *)

(** The reasons [check_quarantine] gives with a positive verdict. *)
Definition quarantine_reasons : list string :=
  ["patient protocol"; "Likely screen capture"; "modality not allowed"; "Modality missing";
   "burnt-in data"; "Manufacturer is suspect"; "Manufacturer model name is suspect"].

(** Every member of a modality value is a string whose lower-case form is
    in the list of the object. *)
Definition modality_ok (self : DicomPseudon) (v : Value) : Prop :=
  forall m, m ∈ members v -> exists s, m = Some s /\ lower s ∈ modalities self.

Definition ds_mr_burnt : Dataset :=
  {[ MODALITY := ("Modality", Single (Some "MR"));
     BURNT_IN := ("Burned In Annotation", Single (Some " YES ")) ]}.

Definition ds_protocol : Dataset :=
  {[ SERIES_DESCR := ("Series Description", Single (Some "Patient Protocol")) ]}.

Definition ds_null_manufacturer : Dataset :=
  {[ MODALITY := ("Modality", Single (Some "CT"));
     MANUFACTURER := ("Manufacturer", Single None) ]}.

(** The list comprehension of [parse_white_list] (line 200): every
    literal of an entry is stored normalized. *)
Definition parse_white_list_entries (literals : list string) : list string :=
  normalize <$> literals.

(** The characters that [normalize] deletes. *)
Definition punctuation : list ascii := ["-"; "_"; ","; "."]%char.

(** What a call leaves of the state when it only logs: everything but the
    log is as before, and the log has grown at its end. *)
Definition only_logs (st st' : State) : Prop :=
  index st' = index st /\ log_open st' = log_open st /\ dirs st' = dirs st /\
  copied st' = copied st /\ saved st' = saved st /\
  exists entries, log st' = log st ++ entries.

Definition ds_mixed : Dataset :=
  {[ ACCESSION_NUMBER := ("Accession Number", Single (Some "A1"));
     MODALITY := ("Modality", Single (Some "CT"));
     SERIES_DESCR := ("Series Description", Single (Some "Head")) ]}.

(** A record without the identifier attribute that passes the quarantine
    rules. *)
Definition ds_no_accession : Dataset :=
  {[ MODALITY := ("Modality", Single (Some "CT")) ]}.

(** Every serial in the table was written by an [Update] of the history
    for the original of its row. *)
Definition written (pre : list Index.op) (idx : Index.t) : Prop :=
  forall r s, r ∈ Index.rows idx -> Index.serial r = Some s ->
              Index.Update (Index.original r) s ∈ pre.

(** What a call leaves of the state when it only sets serial numbers and
    logs: the connection, the existence of the table and the originals
    stored are as before, the file system is untouched, and the log has
    grown at its end. *)
Definition only_serials (st st' : State) : Prop :=
  Index.closed (index st') = Index.closed (index st) /\
  (is_Some (Index.table (index st')) <-> is_Some (Index.table (index st))) /\
  Index.originals (index st') = Index.originals (index st) /\
  log_open st' = log_open st /\ dirs st' = dirs st /\
  copied st' = copied st /\ saved st' = saved st /\
  exists entries, log st' = log st ++ entries.

(** A dataset as [run] writes it: the identifier attribute holds a serial
    number that the index gives for some identifier value, the two audit
    attributes are set, and every other attribute is one the filter
    keeps. *)
Definition clean_output `{!Index.Sqlite} (self : DicomPseudon) (idx : Index.t)
    (d : Dataset) : Prop :=
  (exists n serial v, d !! ACCESSION_NUMBER = Some (n, Single (Some serial)) /\
                      Index.get_value idx v = Ok (Some serial)) /\
  d !! PATIENT_IDENTITY_REMOVED = Some ("Patient Identity Removed", Single (Some "YES")) /\
  d !! DE_IDENTIFICATION_METHOD_TAG
    = Some ("De-identification Method", Single (Some DE_IDENTIFICATION_METHOD)) /\
  forall t n v, d !! t = Some (n, v) ->
    t = PATIENT_IDENTITY_REMOVED \/ t = DE_IDENTIFICATION_METHOD_TAG \/ may_stay self t v.

(** What [run] leaves of a state: the table of the index is as it was,
    and the datasets written since are clean outputs for the index of the
    start. *)
Definition run_effect `{!Index.Sqlite} (self : DicomPseudon) (st st' : State) : Prop :=
  Index.table (index st') = Index.table (index st) /\
  exists new, saved st' = saved st ++ new /\
              Forall (fun pd => clean_output self (index st) pd.2) new.

Definition flow_state (f : Flow) : State :=
  match f with
  | Continue st | Return _ st | Throw _ st => st
  end.

(** A file that is not hidden. *)
Definition visible (en : string * string) : Prop := startswith en.2 "." = false.

#[global] Instance visible_dec en : Decision (visible en) := _.

(** The input directory with a hidden file, a file that is not DICOM and
    a record. *)
Definition w_mixed : World :=
  mkWorld [(EmptyString, ".DS_Store"); (EmptyString, "notes.txt"); (EmptyString, "a1.dcm")]
    (fun p => if String.eqb p "in/a1.dcm" then ReadOk ds_a1 else ReadInvalidDicom)
    (fun _ => true) (fun p => p).

(** The dataset [run] writes for a filtered record and its serial number. *)
Definition substituted (ds : Dataset) (n : string) (serial_num : string) : Dataset :=
  <[DE_IDENTIFICATION_METHOD_TAG :=
      ("De-identification Method", Single (Some DE_IDENTIFICATION_METHOD))]>
    (<[PATIENT_IDENTITY_REMOVED := ("Patient Identity Removed", Single (Some "YES"))]>
       (<[ACCESSION_NUMBER := (n, Single (Some serial_num))]> ds)).

(** The state in which the loop of [run] goes on after one file, if it
    goes on. *)
Definition after_first_file `{!Index.Sqlite} (w : World) (self : DicomPseudon)
    (ident_dir clean_dir root filename : string) (st : State) : option State :=
  match walk_dicoms_file w self ident_dir true root filename st with
  | GSkip st' => Some st'
  | GYield ds source_path fname st' =>
      match run_body w self ident_dir clean_dir ds source_path fname st' with
      | Continue st'' => Some st''
      | _ => None
      end
  | _ => None
  end.


(** * Properties *)

(** ** The embedding at work *)

Example normalize_ex : normalize "  Head-First_Supine,  v.2 " = "headfirstsupine v2".
Proof. reflexivity. Qed.

Example strip_ex : strip (String (ascii_of_N 9) " a b  ") = "a b".
Proof. reflexivity. Qed.

Example contains_ex : contains "save" "screen save 1" = true /\ contains "save" "sav e" = false.
Proof. split; reflexivity. Qed.

Example like_ex :
  Index.like "%123%" "AB-1234" = true /\ Index.like "%abc%" "xABCx" = true /\
  Index.like "%a_c%" "xabc" = true /\ Index.like "123" "1234" = false.
Proof. repeat split. Qed.

Example path_ex :
  path_join "in/a" "f.dcm" = "in/a/f.dcm" /\ path_join "in/" "f.dcm" = "in/f.dcm" /\
  basename "in/a/f.dcm" = "f.dcm" /\ basename "f.dcm" = "f.dcm".
Proof. repeat split. Qed.

(** Only a scalar has multiplicity one, so [members] is the list the
    loops of [check_quarantine] run over. *)
Lemma VM_one v : VM v = 1%nat <-> exists x, v = Single x.
Proof.
  destruct v as [x|a b vs]; simpl; split; eauto; try done.
  by intros [x ?].
Qed.


(** ** Quarantine rules *)

Lemma in_list_spec x l : in_list x l = true <-> x ∈ l.
Proof.
  unfold in_list. rewrite existsb_exists. split.
  - intros (y & Hy & Heq). apply String.eqb_eq in Heq. subst. by apply list_elem_of_In.
  - intros Hx. exists x. split; [by apply list_elem_of_In | apply String.eqb_refl].
Qed.

Example check_quarantine_us :
  check_quarantine default_self ds_us = Ok (true, "modality not allowed").
Proof. reflexivity. Qed.

(** C2 (as amended).  The series-description rules come first and the
    first match wins: for every record whose series description is a
    string that, trimmed and lower-cased, contains "save" and does not
    contain "patient protocol", [check_quarantine] returns the verdict
    [(True, 'Likely screen capture')], whatever the other attributes of
    the record are and whatever the later rules would say. *)
Theorem series_descr_save_quarantined (self : DicomPseudon) (ds : Dataset)
    (n s : string) :
  ds !! SERIES_DESCR = Some (n, Single (Some s)) ->
  contains "save" (lower (strip s)) = true ->
  contains "patient protocol" (lower (strip s)) = false ->
  check_quarantine self ds = Ok (true, "Likely screen capture").
Proof.
  intros Hds Hsave Hpp.
  unfold check_quarantine, series_descr_rule.
  rewrite Hds. simpl. rewrite Hpp, Hsave. reflexivity.
Qed.

(** The record of the end-to-end scenario: SeriesDescription "Save Screen"
    with the allowed modality "CT". *)
Lemma series_descr_save_quarantined_witness :
  check_quarantine default_self ds_save_screen = Ok (true, "Likely screen capture").
Proof.
  apply (series_descr_save_quarantined default_self ds_save_screen
           "Series Description" "Save Screen"); reflexivity.
Defined.

(** C2 as stated does not hold: a series description that contains
    "save" and also "patient protocol" is quarantined by the earlier rule
    with the reason "patient protocol", and the reason of the "save" rule
    is spelled with a capital L. *)
Lemma series_descr_save_counterexample :
  ds_protocol_save !! SERIES_DESCR
    = Some ("Series Description", Single (Some "Patient Protocol save")) /\
  contains "save" (lower (strip "Patient Protocol save")) = true /\
  check_quarantine default_self ds_protocol_save = Ok (true, "patient protocol") /\
  check_quarantine default_self ds_protocol_save <> Ok (true, "likely screen capture") /\
  check_quarantine default_self ds_save_screen <> Ok (true, "likely screen capture").
Proof. repeat split; discriminate. Qed.

Lemma bind_Ok {A B} (m : result A) (k : A -> result B) (b : B) :
  m ≫= k = Ok b <-> exists a, m = Ok a /\ k a = Ok b.
Proof.
  destruct m as [a|e]; simpl; split; try done.
  - eauto.
  - by intros (a' & [= ->] & Hk).
  - by intros (a' & ? & _).
Qed.

(** Membership of a given string in a given list of strings. *)
Ltac elem_of_list := rewrite !elem_of_cons, elem_of_nil; tauto.
Ltac elem_of_list_in H := rewrite !elem_of_cons, elem_of_nil in H; intuition discriminate.

Ltac rule_reason :=
  intros Hr; unfold later_reasons;
  repeat (first [ apply bind_Ok in Hr as (? & _ & Hr) | case_match; simplify_eq/= ]);
  elem_of_list.

Lemma burnt_in_rule_reason ds b r :
  burnt_in_rule ds = Ok (Some (b, r)) -> r ∈ later_reasons.
Proof. unfold burnt_in_rule. rule_reason. Qed.

Lemma image_type_rule_reason ds b r :
  image_type_rule ds = Ok (Some (b, r)) -> r ∈ later_reasons.
Proof. unfold image_type_rule. rule_reason. Qed.

Lemma manufacturer_rule_reason ds b r :
  manufacturer_rule ds = Ok (Some (b, r)) -> r ∈ later_reasons.
Proof. unfold manufacturer_rule. rule_reason. Qed.

Lemma model_name_rule_reason ds b r :
  model_name_rule ds = Ok (Some (b, r)) -> r ∈ later_reasons.
Proof. unfold model_name_rule. rule_reason. Qed.

Lemma later_rules_reason ds b r :
  or_else (burnt_in_rule ds) (or_else (image_type_rule ds)
    (or_else (manufacturer_rule ds) (or_else (model_name_rule ds)
      (Ok (false, EmptyString))))) = Ok (b, r) ->
  r ∈ later_reasons \/ r = EmptyString.
Proof.
  destruct (burnt_in_rule ds) as [[[b1 r1]|]|] eqn:H1; simpl;
    [intros [= <- <-]; left; eauto using burnt_in_rule_reason | | done].
  destruct (image_type_rule ds) as [[[b2 r2]|]|] eqn:H2; simpl;
    [intros [= <- <-]; left; eauto using image_type_rule_reason | | done].
  destruct (manufacturer_rule ds) as [[[b3 r3]|]|] eqn:H3; simpl;
    [intros [= <- <-]; left; eauto using manufacturer_rule_reason | | done].
  destruct (model_name_rule ds) as [[[b4 r4]|]|] eqn:H4; simpl;
    [intros [= <- <-]; left; eauto using model_name_rule_reason | | done].
  intros [= <- <-]. by right.
Qed.

Lemma modality_allowed_false self m :
  (m = None \/ exists s, m = Some s /\ lower s ∉ modalities self) ->
  modality_allowed self m = false.
Proof.
  intros [-> | (s & -> & Hs)]; [done |]. simpl.
  apply not_true_is_false. by rewrite in_list_spec.
Qed.

(** C3 (as amended).  For every record on which the series-description
    rules did not fire: if the modality attribute is present and one of
    its values is null or, lower-cased, not in the list of allowed
    modalities, the verdict is [(True, 'modality not allowed')]; if the
    attribute is absent, the verdict is [(True, 'Modality missing')];
    the first verdict is only given when the attribute is present and
    the second only when it is absent, so no record gets both. *)
Theorem modality_rules (self : DicomPseudon) (ds : Dataset) :
  series_descr_rule ds = Ok None ->
  (forall n v, ds !! MODALITY = Some (n, v) ->
     (exists m, m ∈ members v /\
                (m = None \/ exists s, m = Some s /\ lower s ∉ modalities self)) ->
     check_quarantine self ds = Ok (true, "modality not allowed")) /\
  (ds !! MODALITY = None ->
     check_quarantine self ds = Ok (true, "Modality missing")) /\
  (check_quarantine self ds = Ok (true, "modality not allowed") ->
     is_Some (ds !! MODALITY)) /\
  (check_quarantine self ds = Ok (true, "Modality missing") ->
     ds !! MODALITY = None).
Proof.
  intros Hseries. unfold check_quarantine. rewrite Hseries. simpl.
  unfold modality_rule, modality_missing_rule, has.
  destruct (ds !! MODALITY) as [[n v]|] eqn:Hm.
  - rewrite bool_decide_eq_true_2 by eauto. simpl.
    destruct (forallb (modality_allowed self) (members v)) eqn:Hall; simpl.
    + split; [| split; [done | split; [eauto |]]].
      * intros n' v' [= <- <-] (m & Hin & Hbad).
        rewrite forallb_forall in Hall.
        apply list_elem_of_In, Hall in Hin.
        by rewrite (modality_allowed_false self m Hbad) in Hin.
      * intros Hlater. apply later_rules_reason in Hlater.
        unfold later_reasons in Hlater. elem_of_list_in Hlater.
    + split; [done | split; [done | split; [eauto | done]]].
  - rewrite bool_decide_eq_false_2 by (by intros [? ?]). simpl.
    split; [done | split; [done | split; [done | done]]].
Qed.

(** A record with Modality "US" against the default list, and a record
    without a modality attribute. *)
Lemma modality_rules_witness :
  check_quarantine default_self ds_us = Ok (true, "modality not allowed") /\
  check_quarantine default_self ds_no_modality = Ok (true, "Modality missing").
Proof.
  split.
  - apply (modality_rules default_self ds_us) with (n := "Modality") (v := Single (Some "US")).
    + reflexivity.
    + reflexivity.
    + exists (Some "US"). split; [apply list_elem_of_singleton; reflexivity |].
      right. exists "US". split; [reflexivity |].
      change (lower "US" ∉ modalities default_self) with ("us" ∉ ["mr"; "ct"]).
      intros Hin. elem_of_list_in Hin.
  - apply (modality_rules default_self ds_no_modality); reflexivity.
Defined.

(** C3 as stated does not hold in its wording of the second reason: a
    record without a modality attribute gets the reason
    "Modality missing", with a capital M. *)
Lemma modality_missing_counterexample :
  ds_no_modality !! MODALITY = None /\
  series_descr_rule ds_no_modality = Ok None /\
  check_quarantine default_self ds_no_modality = Ok (true, "Modality missing") /\
  check_quarantine default_self ds_no_modality <> Ok (true, "modality missing").
Proof. repeat split; discriminate. Qed.

(** ** Whitelist filter *)

Lemma file_meta_allowed_spec t : file_meta_allowed t = true <-> format_critical t.
Proof.
  unfold file_meta_allowed, format_critical. split.
  - destruct (ALLOWED_FILE_META !! t) as [n|] eqn:Hn; [intros _ | done].
    apply elem_of_list_to_map_2 in Hn.
    rewrite !elem_of_cons, elem_of_nil in Hn. rewrite !elem_of_cons, elem_of_nil.
    intuition (simplify_eq; auto).
  - rewrite !elem_of_cons, elem_of_nil. intuition (subst; reflexivity).
Qed.

Lemma white_listed_spec self t v :
  white_listed self t v = true <-> whitelist_allows (white_list self) t v.
Proof.
  unfold white_listed, whitelist_allows. split.
  - destruct (white_list self !! t) as [[|x l]|]; try done.
    intros Hin. apply orb_true_iff in Hin. rewrite !in_list_spec in Hin. eauto.
  - intros (allowed & -> & Hin). destruct allowed as [|x l].
    + rewrite !elem_of_nil in Hin. tauto.
    + by rewrite orb_true_iff, !in_list_spec.
Qed.

Lemma keeps_spec self t v : keeps self t v = true <-> may_stay self t v.
Proof.
  unfold keeps, may_stay.
  rewrite !orb_true_iff, bool_decide_eq_true, file_meta_allowed_spec, white_listed_spec.
  tauto.
Qed.

Lemma white_list_handler_snd self e st :
  (white_list_handler self e st).2 = white_listed self (tag e) (value e).
Proof.
  unfold white_list_handler, white_listed.
  destruct (white_list self !! tag e) as [[|x l]|]; try done.
  destruct (in_list "*" (x :: l)), (in_list (normalize (py_str (value e))) (x :: l)); done.
Qed.

(** [clean] on an attribute of the dataset: the attribute stays or goes as
    [keeps] says, nothing else changes, and the call returns. *)
Lemma clean_present self ds st t n v :
  ds !! t = Some (n, v) ->
  exists st', clean self ds (mkElem t n v) st
              = (if keeps self t v then ds else delete t ds, st', Ok (keeps self t v)).
Proof.
  intros Hds. unfold clean, keeps. simpl.
  destruct (decide (t = ACCESSION_NUMBER)) as [->|Hne].
  { rewrite bool_decide_eq_true_2 by done. simpl. eauto. }
  rewrite bool_decide_eq_false_2 by done. simpl.
  destruct (file_meta_allowed t); simpl; [eauto |].
  pose proof (white_list_handler_snd self (mkElem t n v) st) as Hsnd. simpl in Hsnd.
  destruct (white_list_handler self (mkElem t n v) st) as [st' b]. simpl in Hsnd. subst b.
  destruct (white_listed self t v); simpl; [eauto |].
  rewrite Hds. unfold delitem. eauto.
Qed.

Lemma walk_tags_clean self taglist : forall ds st,
  NoDup taglist ->
  (forall t, t ∈ taglist -> is_Some (ds !! t)) ->
  exists ds' st', walk_tags (clean self) taglist ds st = (ds', st', Ok ()) /\
    forall t, ds' !! t =
      if decide (t ∈ taglist)
      then match ds !! t with
           | Some (n, v) => if keeps self t v then Some (n, v) else None
           | None => None
           end
      else ds !! t.
Proof.
  induction taglist as [|t0 taglist IH]; intros ds st Hnd Hin.
  { exists ds, st. split; [reflexivity |].
    intros t. by rewrite decide_False by apply not_elem_of_nil. }
  cbn [walk_tags].
  apply NoDup_cons in Hnd as [Hn0 Hnd].
  destruct (Hin t0 ltac:(left)) as [[n v] Ht0].
  unfold getitem. rewrite Ht0.
  destruct (clean_present self ds st t0 n v Ht0) as (st1 & ->).
  set (ds1 := if keeps self t0 v then ds else delete t0 ds).
  assert (Hother : forall t, t ≠ t0 -> ds1 !! t = ds !! t).
  { intros t Hne. unfold ds1. destruct (keeps self t0 v); [done |]. by rewrite lookup_delete_ne. }
  destruct (IH ds1 st1 Hnd) as (ds' & st' & -> & Hds').
  { intros t Ht. rewrite Hother; [apply Hin; by right | intros ->; done]. }
  exists ds', st'. split; [done |]. intros t. rewrite Hds'.
  destruct (decide (t = t0)) as [->|Hne].
  - rewrite decide_False by done. rewrite decide_True by left.
    unfold ds1. rewrite Ht0. destruct (keeps self t0 v); [done |]. by rewrite lookup_delete_eq.
  - rewrite (Hother t Hne).
    destruct (decide (t ∈ taglist)) as [Hi|Hni].
    + rewrite decide_True by (by right). done.
    + rewrite decide_False; [done |]. rewrite elem_of_cons. tauto.
Qed.

Lemma sorted_tags_spec (ds : Dataset) :
  NoDup (sorted_tags ds) /\ forall t, t ∈ sorted_tags ds <-> is_Some (ds !! t).
Proof.
  unfold sorted_tags.
  pose proof (merge_sort_Permutation tag_le (fst <$> map_to_list ds)) as Hp.
  split.
  - rewrite Hp. apply NoDup_fst_map_to_list.
  - intros t. rewrite Hp, list_elem_of_fmap. split.
    + intros ([t' x] & -> & Hx). apply elem_of_map_to_list in Hx. eauto.
    + intros [x Hx]. exists (t, x). split; [done |]. by apply elem_of_map_to_list.
Qed.

(** C1.  The attribute filter returns on every record, and of the record
    it leaves: every attribute still present was present before with the
    same value and is the identifier attribute, a format-critical
    file-meta attribute, or has a value the whitelist allows for its tag
    (wildcard, or the normalized value in the allowed set of the tag);
    every attribute that was removed is none of the three. *)
Theorem filter_retains_exactly_allowed (self : DicomPseudon) (ds : Dataset) (st : State) :
  exists ds' st',
    apply_filter self ds st = (ds', st', Ok ()) /\
    forall t n v,
      (ds' !! t = Some (n, v) -> ds !! t = Some (n, v) /\ may_stay self t v) /\
      (ds !! t = Some (n, v) -> ds' !! t = None -> ~ may_stay self t v).
Proof.
  destruct (sorted_tags_spec ds) as [Hnd Hin].
  destruct (walk_tags_clean self (sorted_tags ds) ds st Hnd) as (ds' & st' & Hw & Hds').
  { intros t Ht. by apply Hin. }
  exists ds', st'. split; [exact Hw |].
  intros t n v. rewrite Hds'. split.
  - destruct (decide (t ∈ sorted_tags ds)) as [Hi|Hni].
    + destruct (ds !! t) as [[n' v']|]; [| done].
      destruct (keeps self t v') eqn:Hk; [| done].
      intros [= -> ->]. split; [done |]. by apply keeps_spec.
    + intros Hsome. exfalso. apply Hni, Hin. eauto.
  - intros Hds. rewrite Hds. rewrite decide_True by (apply Hin; eauto).
    destruct (keeps self t v) eqn:Hk; [done |].
    intros _ Hstay. apply keeps_spec in Hstay. congruence.
Qed.

Example white_list_handler_ex :
  (white_list_handler default_self
     (mkElem SERIES_DESCR "Series Description" (Single (Some "anything"))) st0).2 = true /\
  (white_list_handler default_self
     (mkElem MODALITY "Modality" (Single (Some "CT"))) st0).2 = false /\
  white_listed (mkPseudon {[ MODALITY := ["mr"; "ct scan"] ]} "q" None [])
    MODALITY (Single (Some " C-T  Scan. ")) = true /\
  white_listed (mkPseudon {[ MODALITY := [] ]} "q" None []) MODALITY (Single (Some "*")) = false.
Proof. repeat split. Qed.

(** ** Identifier index *)

Section IndexInvariant.
Import Index.

Lemma INSERT_originals rs o :
  original <$> INSERT rs o =
  if decide (o ∈ original <$> rs) then original <$> rs else (original <$> rs) ++ [o].
Proof. unfold INSERT. case_decide; [done |]. by rewrite fmap_app. Qed.

Lemma UPDATE_originals rs s o : original <$> UPDATE rs s o = original <$> rs.
Proof.
  unfold UPDATE. rewrite <- list_fmap_compose. apply list_fmap_ext.
  intros i r _. simpl. by case_decide.
Qed.

Lemma INSERT_NoDup rs o : NoDup (original <$> rs) -> NoDup (original <$> INSERT rs o).
Proof.
  intros Hnd. rewrite INSERT_originals. case_decide; [done |].
  apply NoDup_app. split; [done |]. split; [| apply NoDup_singleton].
  intros y Hy Hy'. apply list_elem_of_singleton in Hy'. by subst.
Qed.

Lemma insert_open idx o :
  closed idx = false ->
  insert idx o = Ok (mkIndex false (Some (INSERT (rows idx) o))).
Proof.
  destruct idx as [cl [rs|]]; simpl; intros ->; reflexivity.
Qed.

Lemma insert_closed idx o : closed idx = true -> insert idx o = Raise ProgrammingError.
Proof. destruct idx as [cl tb]; simpl; intros ->; reflexivity. Qed.

Lemma apply_NoDup idx c : NoDup (originals idx) -> NoDup (originals (apply idx c)).
Proof.
  intros Hnd. destruct c as [o|o s|]; simpl; [| | done].
  - destruct (closed idx) eqn:Hcl.
    + by rewrite insert_closed.
    + rewrite insert_open by done. by apply INSERT_NoDup.
  - unfold update. destruct idx as [[|] [rs|]]; simpl; try done.
    unfold originals, rows in *. simpl in *. by rewrite UPDATE_originals.
Qed.

Lemma foldl_apply_NoDup cs : forall idx,
  NoDup (originals idx) -> NoDup (originals (foldl apply idx cs)).
Proof.
  induction cs as [|c cs IH]; intros idx Hnd; simpl; [done |].
  by apply IH, apply_NoDup.
Qed.

Lemma run_NoDup cs : NoDup (originals (run cs)).
Proof. apply foldl_apply_NoDup. unfold originals, rows. simpl. apply NoDup_nil_2. Qed.

Lemma INSERT_present rs o : o ∈ original <$> rs -> INSERT rs o = rs.
Proof. intros Hin. unfold INSERT. by rewrite decide_True. Qed.

Lemma INSERT_elem rs o : o ∈ original <$> INSERT rs o.
Proof.
  rewrite INSERT_originals. case_decide; [done |].
  apply elem_of_app. right. by apply list_elem_of_singleton.
Qed.

Lemma filter_original_nil rs o :
  o ∉ original <$> rs -> filter (fun r => original r = o) rs = [].
Proof.
  induction rs as [|r rs IH]; simpl; intros Hni; [done |].
  apply not_elem_of_cons in Hni as [Hne Hni].
  rewrite filter_cons, decide_False by done. by apply IH.
Qed.

(** In a list of rows with distinct originals, one row has a given
    original that occurs. *)
Lemma one_row rs o :
  NoDup (original <$> rs) -> o ∈ original <$> rs ->
  length (filter (fun r => original r = o) rs) = 1%nat.
Proof.
  induction rs as [|r rs IH]; simpl; intros Hnd Hin.
  { by apply elem_of_nil in Hin. }
  apply NoDup_cons in Hnd as [Hr Hnd]. rewrite filter_cons.
  destruct (decide (original r = o)) as [<-|Hne].
  - simpl. f_equal. apply length_zero_iff_nil, filter_original_nil. done.
  - apply IH; [done |]. apply elem_of_cons in Hin as [Heq|Hin]; [congruence | done].
Qed.

End IndexInvariant.

(** C4.  After every history of index operations the table holds no two
    rows with the same original identifier; on an open connection
    [insert(x)] followed by [insert(x)] leaves exactly one row for [x],
    and [insert(x)] when [x] is already present returns without an error
    and leaves the index as it was. *)
Theorem original_unique (cs : list Index.op) (x : string) :
  NoDup (Index.originals (Index.run cs)) /\
  (Index.closed (Index.run cs) = false ->
   exists idx1,
     Index.insert (Index.run cs) x = Ok idx1 /\
     Index.insert idx1 x = Ok idx1 /\
     length (filter (fun r => Index.original r = x) (Index.rows idx1)) = 1%nat) /\
  (Index.closed (Index.run cs) = false -> x ∈ Index.originals (Index.run cs) ->
   Index.insert (Index.run cs) x = Ok (Index.run cs)).
Proof.
  pose proof (run_NoDup cs) as Hnd. set (idx := Index.run cs) in *.
  split; [exact Hnd |]. split.
  - intros Hopen. rewrite (insert_open idx x Hopen).
    eexists. split; [reflexivity |].
    rewrite insert_open by reflexivity. cbn [Index.rows Index.table default].
    rewrite INSERT_present by apply INSERT_elem.
    split; [reflexivity |].
    apply one_row; [by apply INSERT_NoDup | apply INSERT_elem].
  - intros Hopen Hin. rewrite (insert_open idx x Hopen).
    unfold Index.originals in Hin. rewrite INSERT_present by done.
    destruct idx as [cl [rs|]]; simpl in *; [by subst |].
    unfold Index.rows in Hin. simpl in Hin. by apply elem_of_nil in Hin.
Qed.

Lemma original_unique_witness :
  let idx := Index.run [Index.Insert "A1"; Index.Insert "B2"; Index.Update "A1" "S1"] in
  Index.insert idx "A1" = Ok idx /\
  length (filter (fun r => Index.original r = "A1") (Index.rows idx)) = 1%nat.
Proof.
  intros idx.
  destruct (original_unique
              [Index.Insert "A1"; Index.Insert "B2"; Index.Update "A1" "S1"] "A1")
    as (_ & Htwice & Hnoop).
  split.
  - apply Hnoop; [reflexivity |]. apply elem_of_cons. left. reflexivity.
  - destruct (Htwice eq_refl) as (idx1 & H1 & _ & Hone).
    rewrite Hnoop in H1; [| reflexivity | apply elem_of_cons; left; reflexivity].
    injection H1 as <-. exact Hone.
Defined.

Section IndexQueries.
Import Index.
Context `{!Sqlite}.

Lemma scan_elem rs r : r ∈ scan rs <-> r ∈ rs.
Proof. by rewrite scan_perm. Qed.

Lemma scan_nil : scan [] = [].
Proof. apply Permutation_nil_r. apply scan_perm. Qed.

Lemma get_open idx o :
  closed idx = false ->
  get idx o = Ok (default None (head (GET (rows idx) o))).
Proof.
  destruct idx as [cl [rs|]]; simpl; intros ->; unfold get, table_exists, rows; simpl.
  - by destruct (GET rs o).
  - unfold GET. by rewrite scan_nil.
Qed.

Lemma search_open idx p :
  closed idx = false ->
  search idx p = Ok (head (SEARCH (rows idx) p)).
Proof.
  destruct idx as [cl [rs|]]; simpl; intros ->; unfold search, table_exists, rows; simpl.
  - by destruct (SEARCH rs p).
  - unfold SEARCH. by rewrite scan_nil.
Qed.

Lemma apply_untouched x idx c :
  touches x c = false -> x ∉ originals idx -> x ∉ originals (apply idx c).
Proof.
  intros Ht Hni. destruct c as [o|o s|]; simpl in *; [| | done].
  - apply bool_decide_eq_false in Ht. destruct (closed idx) eqn:Hcl.
    + by rewrite insert_closed.
    + rewrite insert_open by done. unfold originals, rows in *. simpl.
      rewrite INSERT_originals. case_decide; [done |].
      rewrite elem_of_app, list_elem_of_singleton. intros [?|?]; [done | congruence].
  - unfold update. destruct idx as [[|] [rs|]]; simpl; try done.
    unfold originals, rows in *. simpl in *. by rewrite UPDATE_originals.
Qed.

Lemma run_untouched x cs :
  Forall (fun c => touches x c = false) cs -> x ∉ originals (run cs).
Proof.
  unfold run. assert (Hinit : x ∉ originals connect) by apply not_elem_of_nil.
  revert Hinit. generalize connect. induction cs as [|c cs IH]; intros idx Hni Hall; [done |].
  apply Forall_cons in Hall as [Hc Hall]. simpl. apply IH; [| done]. by apply apply_untouched.
Qed.

Lemma GET_absent rs x : x ∉ original <$> rs -> GET rs x = [].
Proof.
  intros Hni. unfold GET. rewrite filter_original_nil; [done |].
  intros Hin. apply Hni. apply list_elem_of_fmap in Hin as (r & -> & Hr).
  apply list_elem_of_fmap. exists r. split; [done |]. by apply scan_elem.
Qed.

Lemma head_serial (l : list Row) x s :
  (forall r, r ∈ l -> original r = x -> serial r = Some s) ->
  (exists r, r ∈ l /\ original r = x) ->
  head (serial <$> filter (fun r => original r = x) l) = Some (Some s).
Proof.
  induction l as [|r0 l IH]; intros Hall (r & Hin & Hr).
  { by apply elem_of_nil in Hin. }
  rewrite filter_cons. destruct (decide (original r0 = x)) as [H0|H0]; simpl.
  - f_equal. apply Hall; [by left | done].
  - apply IH.
    + intros r' Hr'. apply Hall. by right.
    + apply elem_of_cons in Hin as [->|Hin]; [done | eauto].
Qed.

Lemma UPDATE_elem rs s x r :
  r ∈ UPDATE rs s x -> original r = x -> serial r = Some s.
Proof.
  unfold UPDATE. intros (r0 & -> & _)%list_elem_of_fmap. by case_decide.
Qed.

End IndexQueries.

(** C5 (as amended).  For every identifier [x] and serial [s]: after a
    history of operations none of which inserts or updates [x], [get(x)]
    on the open connection returns absent, also when the table has not
    been created; and on an open index that holds a row for [x],
    [update(x, s)] returns and [get(x)] then returns [s]. *)
Theorem get_absent_then_updated `{!Index.Sqlite} (x s : string) :
  (forall cs, Forall (fun c => Index.touches x c = false) cs ->
     Index.closed (Index.run cs) = false ->
     Index.get (Index.run cs) x = Ok None) /\
  (forall idx, Index.closed idx = false -> x ∈ Index.originals idx ->
     exists idx', Index.update idx x s = Ok idx' /\ Index.get idx' x = Ok (Some s)).
Proof.
  split.
  - intros cs Hcs Hopen. rewrite get_open by done.
    rewrite (GET_absent (Index.rows (Index.run cs)) x); [done |].
    by apply run_untouched.
  - intros idx Hopen Hin. destruct idx as [cl [rs|]]; simpl in *; subst cl.
    2:{ by apply elem_of_nil in Hin. }
    unfold Index.update. simpl. eexists. split; [reflexivity |].
    rewrite get_open by done. unfold Index.rows, Index.GET. simpl.
    rewrite head_serial with (s := s); [done | |].
    + intros r Hr. apply (UPDATE_elem rs). by apply scan_elem.
    + unfold Index.originals, Index.rows in Hin. simpl in Hin.
      rewrite <- (UPDATE_originals rs s x) in Hin.
      apply list_elem_of_fmap in Hin as (r & Hx & Hr).
      exists r. split; [by apply scan_elem | done].
Qed.

Lemma get_absent_then_updated_witness :
  @Index.get Index.rowid_order Index.connect "A1" = Ok None /\
  @Index.get Index.rowid_order idx_y "A1" = Ok None /\
  exists idx', Index.update idx_a1 "A1" "S1" = Ok idx' /\
               @Index.get Index.rowid_order idx' "A1" = Ok (Some "S1").
Proof.
  destruct (@get_absent_then_updated Index.rowid_order "A1" "S1") as [Habsent Hupd].
  split; [| split].
  - apply (Habsent []); [constructor | reflexivity].
  - apply (Habsent [Index.Insert "Y"]); [repeat constructor | reflexivity].
  - apply Hupd; [reflexivity |]. apply elem_of_cons. left. reflexivity.
Defined.

(** C5 as stated does not hold without a row for the identifier: on an
    index whose table exists and holds no row for "X", [update("X", "S")]
    changes nothing and [get("X")] still returns absent; on an index
    without a table [update] raises. *)
Lemma get_after_update_counterexample :
  (exists idx', Index.update idx_y "X" "S" = Ok idx' /\
                @Index.get Index.rowid_order idx' "X" = Ok None /\
                @Index.get Index.rowid_order idx' "X" <> Ok (Some "S")) /\
  Index.update Index.connect "X" "S" = Raise OperationalError.
Proof.
  split; [| reflexivity].
  eexists. split; [reflexivity |]. split; [reflexivity | discriminate].
Qed.

(** *** Substring search *)

Lemma like_percent q s :
  Index.like (String "%" q) s =
  Index.like q s || match s with
                    | EmptyString => false
                    | String _ s' => Index.like (String "%" q) s'
                    end.
Proof. destruct s; reflexivity. Qed.

Lemma like_any s : Index.like "%" s = true.
Proof.
  induction s as [|c s IH]; [reflexivity |].
  rewrite like_percent. rewrite IH. apply orb_true_r.
Qed.

Lemma like_plain_prefix f :
  Index.plain f = true ->
  forall s, Index.like (f +:+ "%") s = startswith (lower s) (lower f).
Proof.
  induction f as [|a f IH]; intros Hplain s.
  { rewrite like_any. by destruct s. }
  cbn [Index.plain] in Hplain.
  apply andb_true_iff in Hplain as [Ha Hplain]. apply andb_true_iff in Ha as [Hp Hu].
  apply negb_true_iff in Hp, Hu.
  simpl. rewrite Hp, Hu.
  destruct s as [|c s]; [reflexivity |].
  simpl. by rewrite IH.
Qed.

(** For a fragment without wildcards, matching "%fragment%" is containing
    the fragment, with ASCII letters compared without regard to case. *)
Lemma like_contains f :
  Index.plain f = true ->
  forall s, Index.like ("%" +:+ f +:+ "%") s = contains (lower f) (lower s).
Proof.
  intros Hplain s. change ("%" +:+ f +:+ "%") with (String "%" (f +:+ "%")).
  induction s as [|c s IH]; rewrite like_percent, like_plain_prefix by done.
  - reflexivity.
  - cbn [lower contains]. by rewrite IH.
Qed.

Lemma first_match_Some (p : string) (l : list Index.Row) (o : string) :
  head (Index.original <$> filter (fun r => Index.like p (Index.original r)) l) = Some o <->
  exists pre r post,
    l = pre ++ r :: post /\ Index.original r = o /\ Index.like p o = true /\
    Forall (fun r' => Index.like p (Index.original r') = false) pre.
Proof.
  induction l as [|r0 l IH].
  { split; [done |]. intros (pre & r & post & Hl & _). by destruct pre. }
  rewrite filter_cons. case_decide as H0.
  - simpl. split.
    + intros [= <-]. exists [], r0, l. repeat split; [by apply Is_true_true | constructor].
    + intros (pre & r & post & Hl & <- & _ & Hpre). destruct pre as [|r1 pre].
      * by injection Hl as ->.
      * injection Hl as -> _. apply Forall_cons in Hpre as [Hr0 _].
        apply Is_true_true in H0. congruence.
  - rewrite IH. split.
    + intros (pre & r & post & -> & <- & Hlike & Hpre).
      exists (r0 :: pre), r, post. repeat split; [done |].
      constructor; [by apply Is_true_false | done].
    + intros (pre & r & post & Hl & <- & Hlike & Hpre). destruct pre as [|r1 pre].
      * injection Hl as -> _. by apply Is_true_true in Hlike.
      * injection Hl as -> ->. apply Forall_cons in Hpre as [_ Hpre].
        exists pre, r, post. done.
Qed.

Lemma first_match_None (p : string) (l : list Index.Row) :
  head (Index.original <$> filter (fun r => Index.like p (Index.original r)) l) = None <->
  Forall (fun r => Index.like p (Index.original r) = false) l.
Proof.
  induction l as [|r0 l IH]; [by split; [constructor |] |].
  rewrite filter_cons, Forall_cons. case_decide as H0.
  - simpl. split; [done |]. intros [Hr0 _]. apply Is_true_true in H0. congruence.
  - rewrite IH. apply Is_true_false in H0. tauto.
Qed.

(** C6 (as amended).  For every fragment [f] and every open index,
    [search('%' + f + '%')] returns an original identifier exactly when
    it is the original of the first row, in the order in which the engine
    scans the table, whose original matches the LIKE pattern; it returns
    absent exactly when no stored original matches; and when [f] has
    neither [%] nor [_], an original matches exactly when it contains [f]
    with ASCII letters compared without regard to case. *)
Theorem search_first_like_match `{!Index.Sqlite} (idx : Index.t) (f : string) :
  Index.closed idx = false ->
  (forall o,
     Index.search idx ("%" +:+ f +:+ "%") = Ok (Some o) <->
     exists pre r post,
       Index.scan (Index.rows idx) = pre ++ r :: post /\
       Index.original r = o /\
       Index.like ("%" +:+ f +:+ "%") o = true /\
       Forall (fun r' => Index.like ("%" +:+ f +:+ "%") (Index.original r') = false) pre) /\
  (Index.search idx ("%" +:+ f +:+ "%") = Ok None <->
     Forall (fun o => Index.like ("%" +:+ f +:+ "%") o = false) (Index.originals idx)) /\
  (Index.plain f = true ->
     forall o, Index.like ("%" +:+ f +:+ "%") o = contains (lower f) (lower o)).
Proof.
  intros Hopen. rewrite search_open by done. unfold Index.SEARCH.
  split; [| split].
  - generalize ("%" +:+ f +:+ "%"). intros p o.
    rewrite <- first_match_Some. split; [by intros [= ->] | by intros ->].
  - generalize ("%" +:+ f +:+ "%"). intros p.
    unfold Index.originals. rewrite Forall_fmap.
    transitivity (Forall (fun r => Index.like p (Index.original r) = false)
                    (Index.scan (Index.rows idx))).
    + rewrite <- first_match_None. split; [by intros [= ->] | by intros ->].
    + by rewrite Index.scan_perm.
  - intros Hplain o. by apply like_contains.
Qed.

Lemma search_first_like_match_witness :
  @Index.search Index.rowid_order idx_abc "%b%" = Ok (Some "ABC") /\
  Index.like "%b%" "ABC" = contains (lower "b") (lower "ABC").
Proof.
  destruct (@search_first_like_match Index.rowid_order idx_abc "b" eq_refl)
    as (Hfirst & _ & Hplain).
  split.
  - apply Hfirst. exists [], (Index.mkRow 1 "ABC" None), [].
    repeat split. constructor.
  - apply Hplain. reflexivity.
Defined.

(** C6 as stated does not hold: the match is not case-sensitive, and a
    pattern that is not wrapped in [%] is not a substring search.  With
    the single stored original "ABC", the search for the fragment "abc"
    finds it although "abc" is not a substring of "ABC", and the bare
    pattern "BC" finds nothing although "BC" is one. *)
Lemma search_counterexample :
  @Index.search Index.rowid_order idx_abc "%abc%" = Ok (Some "ABC") /\
  contains "abc" "ABC" = false /\
  @Index.search Index.rowid_order idx_abc "BC" = Ok None /\
  contains "BC" "ABC" = true.
Proof. repeat split. Qed.

(** ** Reconciliation *)

Section Reconciliation.
Context `{!Index.Sqlite}.

(** Processing a list of rows is processing a first part and then the
    rest, with the fragments of the first part remembered. *)
Lemma reconcile_app pre : forall seen st st1 rest,
  reconcile seen pre st = (st1, Ok ()) ->
  reconcile seen (pre ++ rest) st = reconcile (fragments pre ∪ seen) rest st1.
Proof.
  induction pre as [|line pre IH]; intros seen st st1 rest Hpre.
  { injection Hpre as ->. unfold fragments. simpl. by rewrite (left_id_L ∅ (∪)). }
  destruct line as [|f [|s [|x line]]]; try done.
  change ((f :: s :: nil) :: pre) with ([[f; s]] ++ pre) in *.
  simpl in Hpre |- *.
  assert (Hfr : fragments ([f; s] :: pre) = {[f]} ∪ fragments pre) by done.
  rewrite Hfr. destruct (decide (f ∈ seen)) as [Hin|Hni].
  - rewrite (IH _ _ _ rest Hpre). f_equal. set_solver.
  - destruct (Index.search (index st) ("%" +:+ f +:+ "%")) as [[acc|]|e]; [| | done].
    + destruct (Index.update (index st) acc s) as [idx|e]; [| done].
      rewrite (IH _ _ _ rest Hpre). f_equal. set_solver.
    + rewrite (IH _ _ _ rest Hpre). f_equal. set_solver.
Qed.

End Reconciliation.



(** ** The orchestrator *)

Lemma append_cons x a b : String x a +:+ b = String x (a +:+ b).
Proof. reflexivity. Qed.

Lemma startswith_app a b : startswith (a +:+ b) a = true.
Proof.
  induction a as [|c a IH]; [by destruct b |].
  rewrite append_cons. simpl. by rewrite Ascii.eqb_refl.
Qed.

Lemma append_assoc (a b c : string) : (a +:+ b) +:+ c = a +:+ (b +:+ c).
Proof.
  induction a as [|x a IH]; [done |]. by rewrite !append_cons, IH.
Qed.

(** A file found by the walk lies under the top directory. *)
Lemma source_path_under top sub filename :
  startswith filename "/" = false ->
  startswith (path_join (top +:+ sub) filename) top = true.
Proof.
  intros Hf. unfold path_join. rewrite Hf.
  destruct (is_empty (top +:+ sub) || endswith_slash (top +:+ sub));
    rewrite !append_assoc; apply startswith_app.
Qed.


Section Orchestrator.
Context `{!Index.Sqlite}.

Lemma pseudonymize_no_serial self ds st n v :
  ds !! ACCESSION_NUMBER = Some (n, v) ->
  Index.get_value (index st) v = Ok None ->
  pseudonymize self ds st = (ds, st, Raise (ValueError (no_serial_message v))).
Proof.
  intros Hds Hget. unfold pseudonymize, getitem. rewrite Hds. simpl. by rewrite Hget.
Qed.

Lemma run_body_no_serial w self ident_dir clean_dir ds source_path filename st n v :
  check_quarantine self ds = Ok (false, EmptyString) ->
  ds !! ACCESSION_NUMBER = Some (n, v) ->
  Index.get_value (index st) v = Ok None ->
  run_body w self ident_dir clean_dir ds source_path filename st =
  match quarantine_file w self source_path ident_dir
          (resolution_reason (ValueError (no_serial_message v))) st with
  | Ok st' => Continue st'
  | Raise e => Throw e st
  end.
Proof.
  intros Hcheck Hds Hget. unfold run_body.
  rewrite Hcheck, (pseudonymize_no_serial self ds st n v Hds Hget). reflexivity.
Qed.

Lemma for_walk_dicoms_with_tree w self ident_dir clean_dir quarantine tree' files : forall st,
  for_walk_dicoms (with_tree tree' w) self ident_dir quarantine
    (run_body (with_tree tree' w) self ident_dir clean_dir) files st =
  for_walk_dicoms w self ident_dir quarantine (run_body w self ident_dir clean_dir) files st.
Proof.
  induction files as [|[root filename] files IH]; intros st; [done |].
  cbn [for_walk_dicoms].
  change (walk_dicoms_file (with_tree tree' w)) with (walk_dicoms_file w).
  destruct (walk_dicoms_file w self ident_dir quarantine root filename st)
    as [st'|ds source_path fname st'|v st'|e st']; [apply IH | | done | done].
  change (run_body (with_tree tree' w) self ident_dir clean_dir ds source_path fname st')
    with (run_body w self ident_dir clean_dir ds source_path fname st').
  destruct (run_body w self ident_dir clean_dir ds source_path fname st');
    [apply IH | done | done].
Qed.

End Orchestrator.



(** C10.  [pseudonymize] looks the identifier up before it filters: for
    every record whose identifier value has no serial number, the
    [ValueError] is raised with the record and the state exactly as they
    were, no attribute removed; [run] then hands the path of the source
    file to [quarantine_file], which copies that file and writes nothing
    to the clean output. *)
Theorem resolution_error_before_filter `{!Index.Sqlite}
    (self : DicomPseudon) (ds : Dataset) (st : State) (n : string) (v : Value) :
  ds !! ACCESSION_NUMBER = Some (n, v) ->
  Index.get_value (index st) v = Ok None ->
  pseudonymize self ds st = (ds, st, Raise (ValueError (no_serial_message v))) /\
  forall (w : World) (ident_dir clean_dir source_path filename : string),
    check_quarantine self ds = Ok (false, EmptyString) ->
    run_body w self ident_dir clean_dir ds source_path filename st =
      match quarantine_file w self source_path ident_dir
              (resolution_reason (ValueError (no_serial_message v))) st with
      | Ok st' => Continue st'
      | Raise e => Throw e st
      end /\
    forall reason st',
      quarantine_file w self source_path ident_dir reason st = Ok st' ->
      copied st' = copied st ++
        [(source_path, path_join (normpath w (quarantine self)) (basename source_path))] /\
      saved st' = saved st.
Proof.
  intros Hds Hget.
  split; [by apply (pseudonymize_no_serial self ds st n v) |].
  intros w ident_dir clean_dir source_path filename Hcheck.
  split; [by apply (run_body_no_serial w self ident_dir clean_dir ds source_path filename st n v) |].
  intros reason st' Hq. unfold quarantine_file in Hq.
  apply bind_Ok in Hq as (d & Hd & Hq). injection Hq as <-.
  unfold destination in Hd. repeat case_match; simplify_eq.
  unfold ensure_dir. by case_decide.
Qed.

Lemma resolution_error_before_filter_witness :
  @pseudonymize Index.rowid_order default_self ds_a1 st0 =
    (ds_a1, st0, Raise (ValueError "No serial number for accession number A1")) /\
  @run_body Index.rowid_order w_a1 default_self "in" "out" ds_a1 "in/a1.dcm" "a1.dcm" st0 =
    Continue (quarantined w_a1 default_self "in/a1.dcm"
      "Error running pseudonymize function. Error was: No serial number for accession number A1"
      st0).
Proof.
  destruct (@resolution_error_before_filter Index.rowid_order default_self ds_a1 st0
              "Accession Number" (Single (Some "A1")) eq_refl eq_refl) as [Hps Hrun].
  split; [exact Hps |].
  destruct (Hrun w_a1 "in" "out" "in/a1.dcm" "a1.dcm" eq_refl) as [Hbody _].
  rewrite Hbody. reflexivity.
Defined.

(** *** Fatal I/O errors *)

(** When the first file that the walk tries to read raises [IOError], the
    generator logs, closes everything and ends; [run] then leaves its
    loop without having seen the generator's [False], closes everything
    again and returns [True]. *)
Lemma run_read_error `{!Index.Sqlite} w self ident_dir clean_dir sub filename rest st :
  tree w = (sub, filename) :: rest ->
  startswith filename "." = false ->
  read_file w (path_join (ident_dir +:+ sub) filename) = ReadIOError ->
  run w self ident_dir clean_dir st =
  (close_all self (close_all self
     (logger ERROR ("Error reading file " +:+ path_join (ident_dir +:+ sub) filename) st)),
   Ok true).
Proof.
  intros Htree Hdot Hread. unfold run, os_walk. rewrite Htree.
  cbn [fmap list_fmap fst snd for_walk_dicoms]. unfold walk_dicoms_file.
  by rewrite Hdot, Hread.
Qed.

(** When writing the clean file raises [IOError], the body of the loop
    logs, closes everything and makes [run] return [False]. *)
Lemma run_body_write_error `{!Index.Sqlite} w self ident_dir clean_dir ds source_path
    filename st ds' st' serial_num destination_dir ds'' :
  check_quarantine self ds = Ok (false, EmptyString) ->
  pseudonymize self ds st = (ds', st', Ok serial_num) ->
  destination w source_path (path_join clean_dir serial_num) ident_dir = Ok destination_dir ->
  set_value ds' ACCESSION_NUMBER (Single (Some serial_num)) = Ok ds'' ->
  save_as_ok w (path_join destination_dir filename) = false ->
  run_body w self ident_dir clean_dir ds source_path filename st =
  Return false
    (close_all self
       (logger ERROR ("Error writing file " +:+ path_join destination_dir filename)
          (ensure_dir destination_dir st'))).
Proof.
  intros Hcheck Hps Hdest Hset Hsave. unfold run_body.
  by rewrite Hcheck, Hps, Hdest, Hset, Hsave.
Qed.

(** C9, at the failing input.  In the directory whose first file cannot
    be read, [run] stops before the second file and closes the index, but
    it returns [True]; where the clean file cannot be written, it stops,
    closes the index and returns [False]. *)
Theorem run_read_error_returns_true :
  let r := @run Index.rowid_order w_read_error default_self "in" "out" st_s1 in
  let r' := @run Index.rowid_order w_write_error default_self "in" "out" st_s1 in
  r.2 = Ok true /\
  Index.closed (index r.1) = true /\
  log r.1 = [(ERROR, "Error reading file in/a1.dcm")] /\
  saved r.1 = [] /\ copied r.1 = [] /\
  r'.2 = Ok false /\
  Index.closed (index r'.1) = true /\
  log r'.1 = [(ERROR, "Error writing file out/S1/a1.dcm")] /\
  saved r'.1 = [] /\ copied r'.1 = [].
Proof. vm_compute. repeat split. Qed.


(** A run in which nothing fails: both files are filtered, given the serial
    number and written under the directory of the serial. *)
Example run_clean :
  let r := @run Index.rowid_order w_a1 default_self "in" "out" st_s1 in
  r.2 = Ok true /\
  copied r.1 = [] /\
  saved r.1 =
    let ds : Dataset :=
      {[ ACCESSION_NUMBER := ("Accession Number", Single (Some "S1"));
         PATIENT_IDENTITY_REMOVED := ("Patient Identity Removed", Single (Some "YES"));
         DE_IDENTIFICATION_METHOD_TAG :=
           ("De-identification Method", Single (Some DE_IDENTIFICATION_METHOD)) ]} in
    [("out/S1/a1.dcm", ds); ("out/S1/b2.dcm", ds)].
Proof. vm_compute. repeat split. Qed.

(** * Further properties of the code *)

(** ** Quarantine rules *)

(** X1.  A series description that, trimmed and lower-cased, contains
    "patient protocol" decides the verdict: [(True, 'patient protocol')],
    whatever else the record holds. *)
Theorem patient_protocol_first (self : DicomPseudon) (ds : Dataset) (n s : string) :
  ds !! SERIES_DESCR = Some (n, Single (Some s)) ->
  contains "patient protocol" (lower (strip s)) = true ->
  check_quarantine self ds = Ok (true, "patient protocol").
Proof.
  intros Hds Hpp. unfold check_quarantine, series_descr_rule.
  rewrite Hds. simpl. by rewrite Hpp.
Qed.

Lemma patient_protocol_first_witness :
  check_quarantine default_self ds_protocol = Ok (true, "patient protocol").
Proof.
  apply (patient_protocol_first default_self ds_protocol "Series Description"
           "Patient Protocol"); reflexivity.
Defined.

(** What each rule can return. *)
Lemma series_descr_rule_Some ds b r :
  series_descr_rule ds = Ok (Some (b, r)) ->
  b = true /\ (r = "patient protocol" \/ r = "Likely screen capture").
Proof.
  unfold series_descr_rule. intros Hr.
  repeat (first [ apply bind_Ok in Hr as (? & _ & Hr) | case_match; simplify_eq/= ]); auto.
Qed.

Lemma modality_rule_Some self ds b r :
  modality_rule self ds = Ok (Some (b, r)) -> b = true /\ r = "modality not allowed".
Proof. unfold modality_rule. intros Hr. repeat (case_match; simplify_eq/=); auto. Qed.

Lemma modality_missing_rule_Some ds b r :
  modality_missing_rule ds = Ok (Some (b, r)) -> b = true /\ r = "Modality missing".
Proof. unfold modality_missing_rule. intros Hr. repeat (case_match; simplify_eq/=); auto. Qed.

Lemma burnt_in_rule_Some ds b r :
  burnt_in_rule ds = Ok (Some (b, r)) -> b = true /\ r = "burnt-in data".
Proof.
  unfold burnt_in_rule. intros Hr.
  repeat (first [ apply bind_Ok in Hr as (? & _ & Hr) | case_match; simplify_eq/= ]); auto.
Qed.

Lemma image_type_rule_Some ds b r :
  image_type_rule ds = Ok (Some (b, r)) -> b = true /\ r = "Likely screen capture".
Proof. unfold image_type_rule. intros Hr. repeat (case_match; simplify_eq/=); auto. Qed.

Lemma manufacturer_rule_Some ds b r :
  manufacturer_rule ds = Ok (Some (b, r)) -> b = true /\ r = "Manufacturer is suspect".
Proof.
  unfold manufacturer_rule. intros Hr.
  repeat (first [ apply bind_Ok in Hr as (? & _ & Hr) | case_match; simplify_eq/= ]); auto.
Qed.

Lemma model_name_rule_Some ds b r :
  model_name_rule ds = Ok (Some (b, r)) ->
  b = true /\ r = "Manufacturer model name is suspect".
Proof.
  unfold model_name_rule. intros Hr.
  repeat (first [ apply bind_Ok in Hr as (? & _ & Hr) | case_match; simplify_eq/= ]); auto.
Qed.

(** When [or_else] returns a verdict, it is the verdict of the rule or of
    what follows the rule. *)
Lemma or_else_Ok r k v :
  or_else r k = Ok v <-> r = Ok (Some v) \/ (r = Ok None /\ k = Ok v).
Proof.
  destruct r as [[v'|]|e]; simpl; split; try naive_solver.
Qed.

(** A negative verdict means that no rule fired and none raised. *)
Lemma check_quarantine_released self ds r :
  check_quarantine self ds = Ok (false, r) ->
  r = EmptyString /\
  series_descr_rule ds = Ok None /\ modality_rule self ds = Ok None /\
  modality_missing_rule ds = Ok None /\ burnt_in_rule ds = Ok None /\
  image_type_rule ds = Ok None /\ manufacturer_rule ds = Ok None /\
  model_name_rule ds = Ok None.
Proof.
  unfold check_quarantine. intros H.
  apply or_else_Ok in H as [H%series_descr_rule_Some | [H1 H]]; [naive_solver |].
  apply or_else_Ok in H as [H%modality_rule_Some | [H2 H]]; [naive_solver |].
  apply or_else_Ok in H as [H%modality_missing_rule_Some | [H3 H]]; [naive_solver |].
  apply or_else_Ok in H as [H%burnt_in_rule_Some | [H4 H]]; [naive_solver |].
  apply or_else_Ok in H as [H%image_type_rule_Some | [H5 H]]; [naive_solver |].
  apply or_else_Ok in H as [H%manufacturer_rule_Some | [H6 H]]; [naive_solver |].
  apply or_else_Ok in H as [H%model_name_rule_Some | [H7 H]]; [naive_solver |].
  by injection H as <-.
Qed.

(** X2.  Whenever [check_quarantine] returns, either the record is
    flagged with one of the seven reasons of the code, or it is not
    flagged and the reason is the empty string. *)
Theorem verdict_reasons (self : DicomPseudon) (ds : Dataset) (b : bool) (r : string) :
  check_quarantine self ds = Ok (b, r) ->
  (b = true /\ r ∈ quarantine_reasons) \/ (b = false /\ r = EmptyString).
Proof.
  unfold check_quarantine, quarantine_reasons. intros H.
  apply or_else_Ok in H as [H%series_descr_rule_Some | [_ H]];
    [left; split; [tauto | elem_of_list] |].
  apply or_else_Ok in H as [H%modality_rule_Some | [_ H]];
    [left; split; [tauto | elem_of_list] |].
  apply or_else_Ok in H as [H%modality_missing_rule_Some | [_ H]];
    [left; split; [tauto | elem_of_list] |].
  apply or_else_Ok in H as [H%burnt_in_rule_Some | [_ H]];
    [left; split; [tauto | elem_of_list] |].
  apply or_else_Ok in H as [H%image_type_rule_Some | [_ H]];
    [left; split; [tauto | elem_of_list] |].
  apply or_else_Ok in H as [H%manufacturer_rule_Some | [_ H]];
    [left; split; [tauto | elem_of_list] |].
  apply or_else_Ok in H as [H%model_name_rule_Some | [_ H]];
    [left; split; [tauto | elem_of_list] |].
  injection H as <- <-. by right.
Qed.

Lemma verdict_reasons_witness :
  (true = true /\ "burnt-in data" ∈ quarantine_reasons) \/
  (true = false /\ "burnt-in data" = EmptyString).
Proof.
  apply (verdict_reasons default_self ds_mr_burnt true "burnt-in data"). reflexivity.
Defined.

(** The rules that read one string: what it means that they let a record
    pass. *)
Lemma series_descr_rule_None ds n s :
  series_descr_rule ds = Ok None ->
  ds !! SERIES_DESCR = Some (n, Single (Some s)) ->
  contains "patient protocol" (lower (strip s)) = false /\
  contains "save" (lower (strip s)) = false.
Proof.
  unfold series_descr_rule. intros Hr Hds. rewrite Hds in Hr. simpl in Hr.
  repeat (case_match; simplify_eq/=); auto.
Qed.

Lemma burnt_in_rule_None ds n s :
  burnt_in_rule ds = Ok None ->
  ds !! BURNT_IN = Some (n, Single (Some s)) ->
  lower (strip s) <> "yes" /\ lower (strip s) <> "y".
Proof.
  unfold burnt_in_rule. intros Hr Hds. rewrite Hds in Hr.
  apply bind_Ok in Hr as (s' & [= <-] & Hr).
  destruct (in_list (lower (strip s)) ["yes"; "y"]) eqn:Hin; [done |].
  apply not_true_iff_false in Hin. rewrite in_list_spec in Hin.
  rewrite !elem_of_cons in Hin. tauto.
Qed.

Lemma image_type_rule_None ds n v s :
  image_type_rule ds = Ok None ->
  ds !! IMAGE_TYPE = Some (n, v) -> Some s ∈ members v ->
  contains "save" (lower (strip s)) = false.
Proof.
  unfold image_type_rule. intros Hr Hds Hin. rewrite Hds in Hr.
  destruct (existsb image_type_save (members v)) eqn:Hex; [done |].
  apply not_true_iff_false in Hex. apply not_true_is_false. intros Hsave.
  apply Hex, existsb_exists. exists (Some s). split; [by apply list_elem_of_In | done].
Qed.

Lemma manufacturer_rule_None ds n v :
  manufacturer_rule ds = Ok None ->
  ds !! MANUFACTURER = Some (n, v) ->
  exists s, v = Single (Some s) /\
    contains "north american imaging, inc" (lower (strip s)) = false /\
    contains "pacsgear" (lower (strip s)) = false.
Proof.
  unfold manufacturer_rule. intros Hr Hds. rewrite Hds in Hr.
  destruct v as [[s|]|]; try done. simpl in Hr.
  exists s. split; [done |]. apply orb_false_iff. by case_match.
Qed.

Lemma model_name_rule_None ds n v :
  model_name_rule ds = Ok None ->
  ds !! MANUFACTURER_MODEL_NAME = Some (n, v) ->
  exists s, v = Single (Some s) /\ contains "the dicom box" (lower (strip s)) = false.
Proof.
  unfold model_name_rule. intros Hr Hds. rewrite Hds in Hr.
  destruct v as [[s|]|]; try done. simpl in Hr.
  exists s. split; [done |]. by case_match.
Qed.

Lemma modality_rule_None self ds :
  modality_rule self ds = Ok None -> modality_missing_rule ds = Ok None ->
  exists n v, ds !! MODALITY = Some (n, v) /\ modality_ok self v.
Proof.
  unfold modality_rule, modality_missing_rule, has. intros Hr Hm.
  destruct (ds !! MODALITY) as [[n v]|] eqn:Hds.
  - exists n, v. split; [done |].
    destruct (forallb (modality_allowed self) (members v)) eqn:Hall; [| done].
    rewrite forallb_forall in Hall. intros m Hin.
    apply list_elem_of_In, Hall in Hin. destruct m as [s|]; [| done].
    exists s. split; [done |]. by apply in_list_spec.
  - rewrite bool_decide_eq_false_2 in Hm by (by intros [? ?]). done.
Qed.

(** X3.  A record that [check_quarantine] does not flag has a modality
    attribute all of whose values are allowed, a series description free
    of "patient protocol" and "save", a burnt-in annotation other than
    "yes" and "y", no image type that contains "save", and, when present,
    a manufacturer and a model name that are strings free of the suspect
    names. *)
Theorem released_record_is_clean (self : DicomPseudon) (ds : Dataset) (r : string) :
  check_quarantine self ds = Ok (false, r) ->
  (exists n v, ds !! MODALITY = Some (n, v) /\ modality_ok self v) /\
  (forall n s, ds !! SERIES_DESCR = Some (n, Single (Some s)) ->
     contains "patient protocol" (lower (strip s)) = false /\
     contains "save" (lower (strip s)) = false) /\
  (forall n s, ds !! BURNT_IN = Some (n, Single (Some s)) ->
     lower (strip s) <> "yes" /\ lower (strip s) <> "y") /\
  (forall n v s, ds !! IMAGE_TYPE = Some (n, v) -> Some s ∈ members v ->
     contains "save" (lower (strip s)) = false) /\
  (forall n v, ds !! MANUFACTURER = Some (n, v) ->
     exists s, v = Single (Some s) /\
       contains "north american imaging, inc" (lower (strip s)) = false /\
       contains "pacsgear" (lower (strip s)) = false) /\
  (forall n v, ds !! MANUFACTURER_MODEL_NAME = Some (n, v) ->
     exists s, v = Single (Some s) /\ contains "the dicom box" (lower (strip s)) = false).
Proof.
  intros (_ & H1 & H2 & H3 & H4 & H5 & H6 & H7)%check_quarantine_released.
  split; [by apply modality_rule_None |].
  split; [intros n s; by apply series_descr_rule_None |].
  split; [intros n s; by apply burnt_in_rule_None |].
  split; [intros n v s; by apply image_type_rule_None |].
  split; [intros n v; by apply manufacturer_rule_None |].
  intros n v; by apply model_name_rule_None.
Qed.

Lemma released_record_is_clean_witness :
  exists n v, ds_a1 !! MODALITY = Some (n, v) /\ modality_ok default_self v.
Proof.
  apply (released_record_is_clean default_self ds_a1 EmptyString). reflexivity.
Defined.

(** X4.  The burnt-in rule: on a record that the series-description and
    modality rules let pass, a burnt-in annotation that, trimmed and
    lower-cased, is "yes" or "y" gives [(True, 'burnt-in data')]. *)
Theorem burnt_in_quarantined (self : DicomPseudon) (ds : Dataset) (n s : string) :
  series_descr_rule ds = Ok None ->
  (exists n' v, ds !! MODALITY = Some (n', v) /\ modality_ok self v) ->
  ds !! BURNT_IN = Some (n, Single (Some s)) ->
  lower (strip s) = "yes" \/ lower (strip s) = "y" ->
  check_quarantine self ds = Ok (true, "burnt-in data").
Proof.
  intros Hseries (n' & v & Hm & Hok) Hds Hyes.
  unfold check_quarantine. rewrite Hseries. simpl.
  unfold modality_rule, modality_missing_rule, has. rewrite Hm.
  assert (Hall : forallb (modality_allowed self) (members v) = true).
  { apply forallb_forall. intros m Hin%list_elem_of_In.
    destruct (Hok m Hin) as (s' & -> & Hs'). by apply in_list_spec. }
  rewrite Hall, bool_decide_eq_true_2 by eauto. simpl.
  assert (Hin : in_list (lower (strip s)) ["yes"; "y"] = true).
  { apply in_list_spec. rewrite !elem_of_cons. tauto. }
  unfold burnt_in_rule. rewrite Hds.
  change (value_strip (Single (Some s))) with (Ok (strip s)).
  unfold mbind, result_bind, Py.bind. by rewrite Hin.
Qed.

Lemma burnt_in_quarantined_witness :
  check_quarantine default_self ds_mr_burnt = Ok (true, "burnt-in data").
Proof.
  apply (burnt_in_quarantined default_self ds_mr_burnt "Burned In Annotation" " YES ").
  - reflexivity.
  - exists "Modality", (Single (Some "MR")). split; [reflexivity |].
    intros m Hm. apply list_elem_of_singleton in Hm. subst m.
    exists "MR". split; [reflexivity |].
    change (lower "MR" ∈ modalities default_self) with ("mr" ∈ ["mr"; "ct"]).
    apply elem_of_cons. by left.
  - reflexivity.
  - by left.
Defined.

Lemma modality_rules_pass self ds :
  (exists n v, ds !! MODALITY = Some (n, v) /\ modality_ok self v) ->
  modality_rule self ds = Ok None /\ modality_missing_rule ds = Ok None.
Proof.
  intros (n & v & Hm & Hok). unfold modality_rule, modality_missing_rule, has. rewrite Hm.
  assert (Hall : forallb (modality_allowed self) (members v) = true).
  { apply forallb_forall. intros m Hin%list_elem_of_In.
    destruct (Hok m Hin) as (s' & -> & Hs'). by apply in_list_spec. }
  rewrite Hall, bool_decide_eq_true_2 by eauto. done.
Qed.

(** X5.  The manufacturer rule has no guard for a null value: on a
    record that the earlier rules let pass and whose manufacturer
    attribute is present with a null value, [check_quarantine] raises
    [AttributeError], and the loop body of [run] lets the exception
    through without touching the state. *)
Theorem null_manufacturer_raises `{!Index.Sqlite}
    (self : DicomPseudon) (ds : Dataset) (n : string) :
  series_descr_rule ds = Ok None ->
  (exists n' v, ds !! MODALITY = Some (n', v) /\ modality_ok self v) ->
  burnt_in_rule ds = Ok None ->
  image_type_rule ds = Ok None ->
  ds !! MANUFACTURER = Some (n, Single None) ->
  check_quarantine self ds = Raise AttributeError /\
  forall w ident_dir clean_dir source_path filename st,
    run_body w self ident_dir clean_dir ds source_path filename st = Throw AttributeError st.
Proof.
  intros H1 [H2 H3]%modality_rules_pass H4 H5 Hds.
  assert (Hc : check_quarantine self ds = Raise AttributeError).
  { unfold check_quarantine. rewrite H1, H2, H3, H4, H5. simpl.
    unfold manufacturer_rule. by rewrite Hds. }
  split; [done |]. intros. unfold run_body. by rewrite Hc.
Qed.

Lemma null_manufacturer_raises_witness :
  check_quarantine default_self ds_null_manufacturer = Raise AttributeError.
Proof.
  apply (@null_manufacturer_raises Index.rowid_order default_self ds_null_manufacturer
           "Manufacturer"); try reflexivity.
  exists "Modality", (Single (Some "CT")). split; [reflexivity |].
  intros m Hm. apply list_elem_of_singleton in Hm. subst m.
  exists "CT". split; [reflexivity |].
  change (lower "CT" ∈ modalities default_self) with ("ct" ∈ ["mr"; "ct"]).
  apply elem_of_cons. right. apply elem_of_cons. by left.
Defined.

(** X6.  The modality test ignores case on both sides: with the list
    that [__init__] derives from the configured names, a modality value
    is allowed exactly when it equals one of the configured names up to
    ASCII case. *)
Theorem modality_match_ignores_case (wl : gmap Tag (list string)) (q : string)
    (lf : option string) (given : list string) (m : string) :
  modality_allowed (mkPseudon wl q lf (init_modalities given)) (Some m) = true <->
  exists g, g ∈ given /\ lower g = lower m.
Proof.
  simpl. rewrite in_list_spec. unfold init_modalities.
  rewrite list_elem_of_In, in_map_iff. split.
  - intros (g & Hg & Hin). exists g. by rewrite list_elem_of_In.
  - intros (g & Hin & Hg). exists g. by rewrite <- list_elem_of_In.
Qed.

(** ** Whitelist *)

Lemma lower_char_idemp c : lower_char (lower_char c) = lower_char c.
Proof. destruct c as [[] [] [] [] [] [] [] []]; reflexivity. Qed.

Lemma chars_lower s c : c ∈ list_ascii_of_string (lower s) -> lower_char c = c.
Proof.
  induction s as [|a s IH]; simpl; [by intros ?%elem_of_nil |].
  intros [->|Hin]%elem_of_cons; [apply lower_char_idemp | by apply IH].
Qed.

Lemma chars_drop_punct s c :
  c ∈ list_ascii_of_string (drop_punct s) ->
  c ∈ list_ascii_of_string s /\ c ∉ punctuation.
Proof.
  induction s as [|a s IH]; simpl; [by intros ?%elem_of_nil |].
  destruct (Ascii.eqb a "-" || Ascii.eqb a "_" || Ascii.eqb a "," || Ascii.eqb a ".")%char
    eqn:Hp.
  - intros [Hin Hn]%IH. split; [by right | done].
  - simpl. intros [->|Hin]%elem_of_cons.
    + split; [by left |]. unfold punctuation. rewrite !elem_of_cons, elem_of_nil.
      rewrite !orb_false_iff, !Ascii.eqb_neq in Hp. naive_solver.
    + destruct (IH Hin). split; [by right | done].
Qed.

Lemma chars_squeeze_spaces s c :
  c ∈ list_ascii_of_string (squeeze_spaces s) -> c ∈ list_ascii_of_string s.
Proof.
  induction s as [|a s IH]; [done |].
  cbn [squeeze_spaces]. destruct (Ascii.eqb a " "); [destruct s as [|d s'] |].
  - done.
  - destruct (Ascii.eqb d " ").
    + intros Hin%IH. by right.
    + cbn [list_ascii_of_string]. intros [->|Hin]%elem_of_cons; [by left | right; by apply IH].
  - cbn [list_ascii_of_string]. intros [->|Hin]%elem_of_cons; [by left | right; by apply IH].
Qed.

Lemma startswith_cons a p b s :
  startswith (String b s) (String a p) = Ascii.eqb a b && startswith s p.
Proof. reflexivity. Qed.

Lemma contains_cons sub b s :
  contains sub (String b s) = startswith (String b s) sub || contains sub s.
Proof. reflexivity. Qed.

Lemma squeeze_spaces_no_run s : contains "  " (squeeze_spaces s) = false.
Proof.
  induction s as [|a s IH]; [reflexivity |].
  cbn [squeeze_spaces]. destruct (Ascii.eqb a " ") eqn:Ha.
  - destruct s as [|d s'].
    { rewrite contains_cons, startswith_cons. by rewrite andb_false_r. }
    destruct (Ascii.eqb d " ") eqn:Hd; [exact IH |].
    rewrite contains_cons, IH, orb_false_r, startswith_cons.
    cbn [squeeze_spaces]. rewrite Hd, startswith_cons.
    rewrite (Ascii.eqb_sym " " d), Hd. by rewrite andb_false_r.
  - rewrite contains_cons, IH, orb_false_r, startswith_cons.
    by rewrite (Ascii.eqb_sym " " a), Ha.
Qed.

(** X7.  What [normalize] returns, for a literal of the whitelist as for
    a value: no ASCII upper-case letter, none of the characters [-_,.],
    and no two spaces in a row. *)
Theorem normalize_shape (s : string) :
  (forall c, c ∈ list_ascii_of_string (normalize s) ->
     lower_char c = c /\ c ∉ punctuation) /\
  contains "  " (normalize s) = false.
Proof.
  unfold normalize. split; [| apply squeeze_spaces_no_run].
  intros c [Hin Hp]%chars_squeeze_spaces%chars_drop_punct.
  split; [by eapply chars_lower | done].
Qed.

(** X8.  Values are compared modulo normalization: when the table holds
    for a tag the parsed form of a list of literals, [white_list_handler]
    accepts a value exactly when one of the literals normalizes to the
    wildcard or to the same string as the value.  In particular every
    literal accepts itself. *)
Theorem white_list_modulo_normalize (self : DicomPseudon) (t : Tag) (n : string)
    (v : Value) (literals : list string) (st : State) :
  white_list self !! t = Some (parse_white_list_entries literals) ->
  ((white_list_handler self (mkElem t n v) st).2 = true <->
   exists x, x ∈ literals /\ (normalize x = "*" \/ normalize x = normalize (py_str v))) /\
  (py_str v ∈ literals -> (white_list_handler self (mkElem t n v) st).2 = true).
Proof.
  intros Hwl.
  assert (Hiff : (white_list_handler self (mkElem t n v) st).2 = true <->
    exists x, x ∈ literals /\ (normalize x = "*" \/ normalize x = normalize (py_str v))).
  { rewrite white_list_handler_snd, white_listed_spec. simpl.
    unfold whitelist_allows, parse_white_list_entries in *. rewrite Hwl. split.
    - intros (allowed & [= <-] & [Hin|Hin]);
        apply list_elem_of_fmap in Hin as (x & Hx & Hin); exists x; auto.
    - intros (x & Hin & [Hx|Hx]); eexists; (split; [reflexivity |]).
      + left. rewrite <- Hx. by apply list_elem_of_fmap_2.
      + right. rewrite <- Hx. by apply list_elem_of_fmap_2. }
  split; [exact Hiff |]. intros Hin. apply Hiff. eauto.
Qed.

Lemma white_list_modulo_normalize_witness :
  (white_list_handler
     (mkPseudon {[ MODALITY := parse_white_list_entries ["C.T. scan"; "- MR"] ]} "q" None [])
     (mkElem MODALITY "Modality" (Single (Some "- MR"))) st0).2 = true.
Proof.
  apply (white_list_modulo_normalize
           (mkPseudon {[ MODALITY := parse_white_list_entries ["C.T. scan"; "- MR"] ]} "q" None [])
           MODALITY "Modality" (Single (Some "- MR")) ["C.T. scan"; "- MR"] st0).
  - reflexivity.
  - simpl. apply elem_of_cons. right. apply elem_of_cons. by left.
Defined.

(** ** Filter and identifier resolution *)

(** The filter as a function of the record: it returns, and an attribute
    is in the result exactly when it was in the record and is kept. *)
Lemma apply_filter_lookup self ds st :
  exists ds' st',
    apply_filter self ds st = (ds', st', Ok ()) /\
    forall t, ds' !! t =
      match ds !! t with
      | Some (n, v) => if keeps self t v then Some (n, v) else None
      | None => None
      end.
Proof.
  destruct (sorted_tags_spec ds) as [Hnd Hin].
  destruct (walk_tags_clean self (sorted_tags ds) ds st Hnd) as (ds' & st' & Hw & Hds').
  { intros t Ht. by apply Hin. }
  exists ds', st'. split; [exact Hw |]. intros t. rewrite Hds'.
  destruct (decide (t ∈ sorted_tags ds)) as [Hi|Hni]; [done |].
  destruct (ds !! t) as [[n v]|] eqn:Ht; [| done].
  exfalso. apply Hni, Hin. eauto.
Qed.

(** X9.  The filter is idempotent: applied to a record it has already
    filtered, it returns and removes nothing more. *)
Theorem apply_filter_idempotent (self : DicomPseudon) (ds ds' : Dataset) (st st' : State) :
  apply_filter self ds st = (ds', st', Ok ()) ->
  forall st1, exists st2, apply_filter self ds' st1 = (ds', st2, Ok ()).
Proof.
  intros Hf st1.
  destruct (apply_filter_lookup self ds st) as (d1 & s1 & Hf1 & Hd1).
  rewrite Hf in Hf1. injection Hf1 as <- <-.
  destruct (apply_filter_lookup self ds' st1) as (d2 & s2 & Hf2 & Hd2).
  exists s2. rewrite Hf2. do 2 f_equal. f_equal.
  apply map_eq. intros t. rewrite Hd2, Hd1.
  destruct (ds !! t) as [[n v]|]; [| done].
  destruct (keeps self t v) eqn:Hk; [by rewrite Hk | done].
Qed.

Lemma apply_filter_idempotent_witness :
  exists st2,
    apply_filter default_self {[ ACCESSION_NUMBER := ("Accession Number", Single (Some "A1"));
                                 SERIES_DESCR := ("Series Description", Single (Some "Head")) ]}
      st0 =
    ({[ ACCESSION_NUMBER := ("Accession Number", Single (Some "A1"));
        SERIES_DESCR := ("Series Description", Single (Some "Head")) ]}, st2, Ok ()).
Proof.
  apply (apply_filter_idempotent default_self ds_mixed _ st0 st0). reflexivity.
Defined.

Lemma only_logs_refl st : only_logs st st.
Proof. repeat split. exists []. by rewrite app_nil_r. Qed.

Lemma only_logs_trans st1 st2 st3 : only_logs st1 st2 -> only_logs st2 st3 -> only_logs st1 st3.
Proof.
  intros (H1 & H2 & H3 & H4 & H5 & l & H6) (K1 & K2 & K3 & K4 & K5 & l' & K6).
  repeat split; try congruence. exists (l ++ l'). by rewrite K6, H6, app_assoc.
Qed.

Lemma logger_only_logs lvl msg st : only_logs st (logger lvl msg st).
Proof. repeat split. by eexists. Qed.

Lemma clean_only_logs self ds e st ds' st' r :
  clean self ds e st = (ds', st', r) -> only_logs st st'.
Proof.
  unfold clean, white_list_handler. intros H.
  repeat (case_match; simplify_eq/=);
    first [apply only_logs_refl | apply logger_only_logs].
Qed.

Lemma walk_tags_clean_only_logs self taglist : forall ds st ds' st' r,
  walk_tags (clean self) taglist ds st = (ds', st', r) -> only_logs st st'.
Proof.
  induction taglist as [|t taglist IH]; intros ds st ds' st' r H; simpl in H.
  { injection H as <- <- <-. apply only_logs_refl. }
  destruct (getitem ds t) as [e|e]; [| injection H as <- <- <-; apply only_logs_refl].
  destruct (clean self ds e st) as [[ds1 st1] [b|x]] eqn:Hc.
  - eapply only_logs_trans; [by eapply clean_only_logs | by eapply IH].
  - injection H as <- <- <-. by eapply clean_only_logs.
Qed.

(** X10.  Filtering a record touches neither the index nor the file
    system: whatever the record, the state after the filter differs from
    the state before only by records appended to the log. *)
Theorem apply_filter_only_logs (self : DicomPseudon) (ds : Dataset) (st : State) :
  only_logs st (apply_filter self ds st).1.2.
Proof.
  destruct (apply_filter self ds st) as [[ds' st'] r] eqn:Hf. simpl.
  by eapply walk_tags_clean_only_logs.
Qed.

(** X11.  When the index has a serial number for the identifier of a
    record, [pseudonymize] returns that serial number with the filtered
    record: the identifier attribute is still there with its original
    value, every attribute left was in the record and is allowed, and the
    state has changed by log records only. *)
Theorem pseudonymize_resolved `{!Index.Sqlite}
    (self : DicomPseudon) (ds : Dataset) (st : State) (n : string) (v : Value)
    (serial_num : string) :
  ds !! ACCESSION_NUMBER = Some (n, v) ->
  Index.get_value (index st) v = Ok (Some serial_num) ->
  exists ds' st',
    pseudonymize self ds st = (ds', st', Ok serial_num) /\
    ds' !! ACCESSION_NUMBER = Some (n, v) /\
    (forall t n' v', ds' !! t = Some (n', v') ->
       ds !! t = Some (n', v') /\ may_stay self t v') /\
    only_logs st st'.
Proof.
  intros Hds Hget.
  pose proof (apply_filter_only_logs self ds st) as Hlogs.
  destruct (apply_filter_lookup self ds st) as (ds' & st' & Hf & Hds').
  rewrite Hf in Hlogs. simpl in Hlogs.
  exists ds', st'. unfold pseudonymize, getitem. rewrite Hds. simpl. rewrite Hget, Hf.
  split; [done |]. split; [| split; [| done]].
  - rewrite Hds', Hds. unfold keeps. by rewrite bool_decide_eq_true_2.
  - intros t n' v'. rewrite Hds'.
    destruct (ds !! t) as [[n0 v0]|]; [| done].
    destruct (keeps self t v0) eqn:Hk; [| done].
    intros [= -> ->]. split; [done |]. by apply keeps_spec.
Qed.

Lemma pseudonymize_resolved_witness :
  exists ds' st',
    @pseudonymize Index.rowid_order default_self ds_a1 st_s1 = (ds', st', Ok "S1") /\
    ds' !! ACCESSION_NUMBER = Some ("Accession Number", Single (Some "A1")).
Proof.
  destruct (@pseudonymize_resolved Index.rowid_order default_self ds_a1 st_s1
              "Accession Number" (Single (Some "A1")) "S1" eq_refl eq_refl)
    as (ds' & st' & Hps & Hacc & _).
  by exists ds', st'.
Defined.

(** X12.  A record without the identifier attribute is not a resolution
    error: [pseudonymize] raises [KeyError] before it looks anything up,
    [run] does not catch it, and for a record that passes the quarantine
    rules the loop body of [run] ends with that exception, the state
    untouched and nothing quarantined. *)
Theorem missing_identifier_raises `{!Index.Sqlite}
    (self : DicomPseudon) (ds : Dataset) (st : State) :
  ds !! ACCESSION_NUMBER = None ->
  pseudonymize self ds st = (ds, st, Raise KeyError) /\
  (check_quarantine self ds = Ok (false, EmptyString) ->
   forall w ident_dir clean_dir source_path filename,
     run_body w self ident_dir clean_dir ds source_path filename st = Throw KeyError st).
Proof.
  intros Hds.
  assert (Hps : pseudonymize self ds st = (ds, st, Raise KeyError)).
  { unfold pseudonymize, getitem. by rewrite Hds. }
  split; [done |]. intros Hcheck w ident_dir clean_dir source_path filename.
  unfold run_body. by rewrite Hcheck, Hps.
Qed.

Lemma missing_identifier_raises_witness :
  @run_body Index.rowid_order w_a1 default_self "in" "out" ds_no_accession
    "in/a1.dcm" "a1.dcm" st_s1 = Throw KeyError st_s1.
Proof.
  apply (@missing_identifier_raises Index.rowid_order default_self ds_no_accession st_s1);
    reflexivity.
Defined.

(** ** Identifier index *)

Section IndexFurther.
Import Index.
Context `{!Sqlite}.

Lemma filter_original_length rs y :
  NoDup (original <$> rs) -> (length (filter (fun r => original r = y) rs) <= 1)%nat.
Proof.
  intros Hnd. destruct (decide (y ∈ original <$> rs)) as [Hin|Hni].
  - by rewrite one_row.
  - rewrite filter_original_nil by done. simpl. lia.
Qed.

Lemma Permutation_short {A} (l l' : list A) : (length l <= 1)%nat -> l ≡ₚ l' -> l = l'.
Proof.
  intros Hlen Hp. destruct l as [|a [|b l]]; simpl in Hlen; [| | lia].
  - by apply Permutation_nil_l in Hp.
  - by apply Permutation_singleton_l in Hp.
Qed.

(** With distinct originals the answer of [GET] does not depend on the
    order of the scan. *)
Lemma GET_canonical rs y :
  NoDup (original <$> rs) ->
  GET rs y = serial <$> filter (fun r => original r = y) rs.
Proof.
  intros Hnd. unfold GET. f_equal. symmetry. apply Permutation_short.
  - by apply filter_original_length.
  - by rewrite scan_perm.
Qed.

Lemma get_canonical idx y :
  closed idx = false -> NoDup (originals idx) ->
  get idx y = Ok (default None (head (serial <$> filter (fun r => original r = y) (rows idx)))).
Proof. intros Hopen Hnd. rewrite get_open by done. by rewrite GET_canonical. Qed.

Lemma run_closed_insert cs x :
  closed (run cs) = false ->
  exists idx', insert (run cs) x = Ok idx' /\ closed idx' = false /\
               rows idx' = INSERT (rows (run cs)) x /\ NoDup (originals idx').
Proof.
  intros Hopen. rewrite insert_open by done. eexists. split; [reflexivity |].
  split; [done |]. split; [done |]. unfold originals. simpl.
  apply INSERT_NoDup, run_NoDup.
Qed.

End IndexFurther.

(** X13.  [insert] changes no answer of [get]: after any history of
    operations, on the open index, [insert(x)] returns and [get(y)] on
    the index it leaves is what it was before, for every [y]; for [x]
    itself it stays absent when [x] is new. *)
Theorem insert_preserves_get `{!Index.Sqlite} (cs : list Index.op) (x y : string) :
  Index.closed (Index.run cs) = false ->
  exists idx', Index.insert (Index.run cs) x = Ok idx' /\
               Index.get idx' y = Index.get (Index.run cs) y.
Proof.
  intros Hopen. destruct (run_closed_insert cs x Hopen) as (idx' & Hins & Hopen' & Hrows & Hnd').
  exists idx'. split; [done |].
  rewrite !get_canonical by (done || apply run_NoDup). rewrite Hrows.
  unfold Index.INSERT. case_decide as Hin; [done |].
  rewrite filter_app, fmap_app. rewrite filter_cons, filter_nil. simpl.
  destruct (decide (x = y)) as [->|Hne].
  - rewrite (filter_original_nil _ y) by done. done.
  - by rewrite app_nil_r.
Qed.

Lemma insert_preserves_get_witness :
  exists idx', Index.insert st_s1.(index) "B2" = Ok idx' /\
               @Index.get Index.rowid_order idx' "A1" = Ok (Some "S1").
Proof.
  destruct (@insert_preserves_get Index.rowid_order
              [Index.Insert "A1"; Index.Update "A1" "S1"] "B2" "A1" eq_refl)
    as (idx' & Hins & Hget).
  exists idx'. split; [exact Hins |]. rewrite Hget. reflexivity.
Defined.

Section IndexHistory.
Import Index.
Context `{!Sqlite}.

Lemma UPDATE_cons r rs s x :
  UPDATE (r :: rs) s x =
  (if decide (original r = x) then mkRow (id r) (original r) (Some s) else r) :: UPDATE rs s x.
Proof. reflexivity. Qed.

Lemma UPDATE_absent rs s x : x ∉ original <$> rs -> UPDATE rs s x = rs.
Proof.
  induction rs as [|r rs IH]; [done |]. intros [Hne Hni]%not_elem_of_cons.
  rewrite UPDATE_cons, decide_False by done. f_equal. by apply IH.
Qed.

Lemma UPDATE_filter_other rs s x y :
  y <> x ->
  serial <$> filter (fun r => original r = y) (UPDATE rs s x)
  = serial <$> filter (fun r => original r = y) rs.
Proof.
  intros Hne. induction rs as [|r rs IH]; [done |].
  rewrite UPDATE_cons, !filter_cons.
  destruct (decide (original r = x)) as [Hx|Hx].
  - cbn [original]. rewrite !decide_False by congruence. apply IH.
  - case_decide; [rewrite !fmap_cons; by rewrite IH | apply IH].
Qed.

Lemma contains_refl s : contains s s = true.
Proof.
  assert (Hs : startswith s s = true).
  { induction s as [|c s IH]; [done |]. simpl. by rewrite Ascii.eqb_refl. }
  destruct s; simpl in *; [done | by rewrite Hs].
Qed.

Lemma update_rows idx o s' idx' :
  update idx o s' = Ok idx' -> rows idx' = UPDATE (rows idx) s' o.
Proof.
  unfold update. destruct idx as [[|] [rs|]]; simpl; try done. by intros [= <-].
Qed.

Lemma apply_written pre idx c : written pre idx -> written (pre ++ [c]) (apply idx c).
Proof.
  intros Hw r s Hr Hs. apply elem_of_app.
  destruct c as [o|o s'|]; cbn [apply] in Hr.
  - destruct (closed idx) eqn:Hcl.
    + rewrite insert_closed in Hr by done. left. eauto.
    + rewrite insert_open in Hr by done. unfold rows at 1 in Hr. cbn [table default] in Hr.
      unfold INSERT in Hr. case_decide; [left; eauto |].
      apply elem_of_app in Hr as [Hr|Hr%list_elem_of_singleton]; [left; eauto |].
      by subst r.
  - destruct (update idx o s') as [idx'|e] eqn:Hupd; [| left; eauto].
    rewrite (update_rows _ _ _ _ Hupd) in Hr. unfold UPDATE in Hr.
    apply list_elem_of_fmap in Hr as (r0 & -> & Hr0).
    case_decide as Ho.
    + right. cbn [serial original] in *. injection Hs as <-. rewrite Ho.
      by apply list_elem_of_singleton.
    + left. eauto.
  - left. eauto.
Qed.

Lemma foldl_written cs : forall pre idx,
  written pre idx -> written (pre ++ cs) (foldl apply idx cs).
Proof.
  induction cs as [|c cs IH]; intros pre idx Hw; simpl.
  - by rewrite app_nil_r.
  - rewrite (cons_middle c pre cs), app_assoc. apply IH. by apply apply_written.
Qed.

Lemma run_written cs : written cs (run cs).
Proof.
  apply (foldl_written cs [] connect). intros r s Hr. by apply elem_of_nil in Hr.
Qed.

End IndexHistory.

(** X14.  [update] is local: after any history, when [update(x, s)]
    returns on the open index, [get(y)] for every other identifier [y]
    is what it was before. *)
Theorem update_preserves_other `{!Index.Sqlite} (cs : list Index.op) (x s y : string)
    (idx' : Index.t) :
  y <> x ->
  Index.update (Index.run cs) x s = Ok idx' ->
  Index.get idx' y = Index.get (Index.run cs) y.
Proof.
  intros Hne Hupd. pose proof (run_NoDup cs) as Hnd.
  destruct (Index.run cs) as [[|] [rs|]] eqn:Hrun; try done.
  unfold Index.update in Hupd. simpl in Hupd. injection Hupd as <-.
  rewrite !get_canonical; try done.
  - unfold Index.rows. simpl. by rewrite UPDATE_filter_other.
  - unfold Index.originals, Index.rows in *. simpl in *. by rewrite UPDATE_originals.
Qed.

Lemma update_preserves_other_witness :
  exists idx', Index.update st_s1.(index) "B2" "S9" = Ok idx' /\
               @Index.get Index.rowid_order idx' "A1"
               = @Index.get Index.rowid_order st_s1.(index) "A1".
Proof.
  eexists. split; [reflexivity |].
  apply (@update_preserves_other Index.rowid_order
           [Index.Insert "A1"; Index.Update "A1" "S1"] "B2" "S9" "A1");
    [discriminate | reflexivity].
Defined.

(** X15.  [update] of an identifier that has no row: when the table
    exists the index is returned as it was, and when the table does not
    exist yet the call raises [OperationalError]. *)
Theorem update_absent (idx : Index.t) (x s : string) :
  Index.closed idx = false ->
  x ∉ Index.originals idx ->
  (is_Some (Index.table idx) -> Index.update idx x s = Ok idx) /\
  (Index.table idx = None -> Index.update idx x s = Raise OperationalError).
Proof.
  intros Hopen Hni. destruct idx as [cl [rs|]]; simpl in *; subst cl; unfold Index.update; simpl.
  - split; [| done]. intros _. unfold Index.originals, Index.rows in Hni. simpl in Hni.
    by rewrite UPDATE_absent.
  - split; [by intros [? ?] | done].
Qed.

Lemma update_absent_witness :
  Index.update idx_y "X" "S" = Ok idx_y /\
  Index.update Index.connect "X" "S" = Raise OperationalError.
Proof.
  split.
  - apply (update_absent idx_y "X" "S"); [reflexivity | | by eexists].
    unfold Index.originals. simpl. intros Hin. apply list_elem_of_singleton in Hin. discriminate.
  - apply (update_absent Index.connect "X" "S"); [reflexivity | | reflexivity].
    apply not_elem_of_nil.
Defined.

(** X16.  An identifier that was inserted is found by the search for
    itself: on an open index, after [insert(x)] with [x] free of [%] and
    [_], [search('%' + x + '%')] returns a stored original, and that
    original contains [x] up to ASCII case. *)
Theorem insert_then_search `{!Index.Sqlite} (idx : Index.t) (x : string) :
  Index.closed idx = false ->
  Index.plain x = true ->
  exists idx' o,
    Index.insert idx x = Ok idx' /\
    Index.search idx' ("%" +:+ x +:+ "%") = Ok (Some o) /\
    o ∈ Index.originals idx' /\
    contains (lower x) (lower o) = true.
Proof.
  intros Hopen Hplain.
  set (idx' := Index.mkIndex false (Some (Index.INSERT (Index.rows idx) x))).
  assert (Hx : x ∈ Index.originals idx') by apply INSERT_elem.
  assert (Hlike : Index.like ("%" +:+ x +:+ "%") x = true).
  { rewrite like_contains by done. apply contains_refl. }
  assert (Hs : exists o, Index.search idx' ("%" +:+ x +:+ "%") = Ok (Some o) /\
                         o ∈ Index.originals idx' /\ contains (lower x) (lower o) = true).
  { rewrite search_open by done. unfold Index.SEARCH.
    destruct (head _) as [o|] eqn:Hhead.
    - exists o. split; [done |].
      apply first_match_Some in Hhead as (pre & r & post & Hscan & <- & Hl & _).
      split.
      + unfold Index.originals. apply list_elem_of_fmap_2. apply scan_elem.
        rewrite Hscan. apply elem_of_app. right. by left.
      + by rewrite <- like_contains.
    - exfalso. apply first_match_None in Hhead. rewrite Forall_forall in Hhead.
      unfold Index.originals in Hx. apply list_elem_of_fmap in Hx as (r & -> & Hr).
      rewrite <- scan_elem in Hr. specialize (Hhead r Hr). congruence. }
  destruct Hs as (o & Hs). exists idx', o. split; [by apply insert_open | exact Hs].
Qed.

Lemma insert_then_search_witness :
  exists idx' o,
    Index.insert idx_abc "b" = Ok idx' /\
    @Index.search Index.rowid_order idx' "%b%" = Ok (Some o) /\
    o ∈ Index.originals idx' /\ contains (lower "b") (lower o) = true.
Proof. apply (@insert_then_search Index.rowid_order idx_abc "b"); reflexivity. Defined.

(** X17.  A serial number that [get] returns was written by an update:
    after any history of operations, if [get(x)] returns the serial [s],
    then the history contains [update(x, s)]. *)
Theorem get_serial_was_updated `{!Index.Sqlite} (cs : list Index.op) (x s : string) :
  Index.get (Index.run cs) x = Ok (Some s) ->
  Index.Update x s ∈ cs.
Proof.
  intros Hget.
  destruct (Index.closed (Index.run cs)) eqn:Hopen.
  { unfold Index.get, Index.table_exists in Hget. by rewrite Hopen in Hget. }
  rewrite get_open in Hget by done. injection Hget as Hget. unfold Index.GET in Hget.
  destruct (filter _ _) as [|r l] eqn:Hf; [done |]. simpl in Hget.
  assert (Hr : r ∈ r :: l) by left. rewrite <- Hf in Hr.
  apply list_elem_of_filter in Hr as [Hrx Hr]. rewrite scan_elem in Hr.
  rewrite <- Hrx. by apply (run_written cs r s).
Qed.

Lemma get_serial_was_updated_witness :
  Index.Update "A1" "S1" ∈ [Index.Insert "A1"; Index.Update "A1" "S1"].
Proof.
  apply (@get_serial_was_updated Index.rowid_order
           [Index.Insert "A1"; Index.Update "A1" "S1"] "A1" "S1").
  reflexivity.
Defined.

(** ** Reconciliation *)

Section ReconciliationFurther.
Context `{!Index.Sqlite}.

Lemma only_serials_refl st : only_serials st st.
Proof. repeat split; try done. exists []. by rewrite app_nil_r. Qed.

Lemma only_serials_trans st1 st2 st3 :
  only_serials st1 st2 -> only_serials st2 st3 -> only_serials st1 st3.
Proof.
  intros (H1 & H2 & H3 & H4 & H5 & H6 & H7 & l & H8) (K1 & K2 & K3 & K4 & K5 & K6 & K7 & l' & K8).
  repeat split; try congruence; try tauto.
  exists (l ++ l'). by rewrite K8, H8, app_assoc.
Qed.

Lemma logger_only_serials lvl msg st : only_serials st (logger lvl msg st).
Proof. repeat split; try done. by eexists. Qed.

Lemma update_only_serials st acc s idx :
  Index.update (index st) acc s = Ok idx -> only_serials st (set_index idx st).
Proof.
  unfold Index.update. destruct (index st) as [[|] [rs|]] eqn:Hidx; try done.
  intros [= <-]. unfold only_serials. simpl. rewrite Hidx.
  unfold Index.originals, Index.rows. simpl. rewrite UPDATE_originals.
  repeat split; eauto. exists []. by rewrite app_nil_r.
Qed.

Lemma reconcile_only_serials lines : forall seen st st' r,
  reconcile seen lines st = (st', r) -> only_serials st st'.
Proof.
  induction lines as [|line lines IH]; intros seen st st' r Hrec.
  { injection Hrec as <- <-. apply only_serials_refl. }
  destruct line as [|f [|s [|x line]]]; simpl in Hrec;
    try (injection Hrec as <- <-; apply only_serials_refl).
  destruct (decide (f ∈ seen)).
  { eapply only_serials_trans; [apply logger_only_serials | by eapply IH]. }
  destruct (Index.search (index st) ("%" +:+ f +:+ "%")) as [[acc|]|e];
    [| | injection Hrec as <- <-; apply only_serials_refl].
  - destruct (Index.update (index st) acc s) as [idx|e] eqn:Hupd;
      [| injection Hrec as <- <-; apply only_serials_refl].
    eapply only_serials_trans; [by eapply update_only_serials | by eapply IH].
  - eapply only_serials_trans; [apply logger_only_serials | by eapply IH].
Qed.

Lemma search_Some_open idx p o :
  Index.search idx p = Ok (Some o) ->
  Index.closed idx = false /\ o ∈ Index.originals idx /\ is_Some (Index.table idx).
Proof.
  intros Hs. destruct (Index.closed idx) eqn:Hopen.
  { unfold Index.search, Index.table_exists in Hs. by rewrite Hopen in Hs. }
  split; [done |]. rewrite search_open in Hs by done. injection Hs as Hs.
  apply first_match_Some in Hs as (pre & r & post & Hscan & <- & _).
  assert (Hr : r ∈ Index.rows idx).
  { apply scan_elem. rewrite Hscan. apply elem_of_app. right. by left. }
  split; [by apply list_elem_of_fmap_2 |].
  unfold Index.rows in Hr. destruct (Index.table idx); [eauto |].
  by apply elem_of_nil in Hr.
Qed.

Lemma search_open_Ok idx p :
  Index.closed idx = false -> exists o, Index.search idx p = Ok o.
Proof. intros Hopen. rewrite search_open by done. eauto. Qed.

(** [update] of a stored identifier returns, and [get] then returns the
    serial. *)
Lemma update_then_get idx x s :
  Index.closed idx = false -> x ∈ Index.originals idx ->
  exists idx', Index.update idx x s = Ok idx' /\ Index.get idx' x = Ok (Some s).
Proof.
  intros Hopen Hin. destruct idx as [cl [rs|]]; simpl in *; subst cl.
  2:{ by apply elem_of_nil in Hin. }
  unfold Index.update. simpl. eexists. split; [reflexivity |].
  rewrite get_open by done. unfold Index.rows, Index.GET. simpl.
  rewrite head_serial with (s := s); [done | |].
  - intros r Hr. apply (UPDATE_elem rs). by apply scan_elem.
  - unfold Index.originals, Index.rows in Hin. simpl in Hin.
    rewrite <- (UPDATE_originals rs s x) in Hin.
    apply list_elem_of_fmap in Hin as (r & Hx & Hr).
    exists r. split; [by apply scan_elem | done].
Qed.

End ReconciliationFurther.

(** X18.  Reconciliation only sets serial numbers and logs: whatever the
    linkage list, and whether or not the loop ends with an exception, the
    index holds the same original identifiers afterwards, the connection
    is as it was, and no file has been copied or written. *)
Theorem reconcile_keeps_originals `{!Index.Sqlite} (seen : gset string)
    (lines : list (list string)) (st : State) :
  only_serials st (reconcile seen lines st).1.
Proof.
  destruct (reconcile seen lines st) as [st' r] eqn:Hrec. simpl.
  by eapply reconcile_only_serials.
Qed.

(** X19.  On an open index, a linkage list all of whose rows have exactly
    two fields is processed to its end: the loop raises nothing. *)
Theorem reconcile_total_on_pairs `{!Index.Sqlite} (lines : list (list string))
    (seen : gset string) (st : State) :
  Index.closed (index st) = false ->
  Forall (fun line => length line = 2%nat) lines ->
  exists st', reconcile seen lines st = (st', Ok ()).
Proof.
  revert seen st. induction lines as [|line lines IH]; intros seen st Hopen Hall.
  { by eexists. }
  apply Forall_cons in Hall as [Hlen Hall].
  destruct line as [|f [|s [|x line]]]; try done. cbn [reconcile].
  assert (Hlog : forall lvl msg, Index.closed (index (logger lvl msg st)) = false) by done.
  destruct (decide (f ∈ seen)); [by apply IH |].
  destruct (search_open_Ok (index st) ("%" +:+ f +:+ "%") Hopen) as [[acc|] Hs]; rewrite Hs.
  - apply search_Some_open in Hs as (_ & Hin & _).
    destruct (update_then_get (index st) acc s Hopen Hin) as (idx' & Hupd & _).
    rewrite Hupd. apply IH; [| done].
    pose proof (update_only_serials st acc s idx' Hupd) as (Hcl & _). by rewrite Hcl.
  - by apply IH.
Qed.

Lemma reconcile_total_on_pairs_witness :
  exists st', @reconcile Index.rowid_order ∅ [["123"; "S1"]; ["999"; "S2"]] st_frag = (st', Ok ()).
Proof.
  apply (@reconcile_total_on_pairs Index.rowid_order); [reflexivity |].
  repeat constructor.
Defined.

(** X20.  A row that does not have exactly two fields ends the loop with
    a [ValueError]: the rows before it stay applied, the rows after it
    are not looked at. *)
Theorem reconcile_malformed_row `{!Index.Sqlite} (pre post : list (list string))
    (line : list string) (st st1 : State) :
  reconcile ∅ pre st = (st1, Ok ()) ->
  length line <> 2%nat ->
  exists msg, reconcile ∅ (pre ++ line :: post) st = (st1, Raise (ValueError msg)).
Proof.
  intros Hpre Hlen. rewrite (reconcile_app pre ∅ st st1 _ Hpre).
  destruct line as [|f [|s [|x line]]]; try done; by eexists.
Qed.

Lemma reconcile_malformed_row_witness :
  exists msg,
    @reconcile Index.rowid_order ∅ [["123"; "S1"]; ["only one field"]; ["999"; "S2"]] st_frag
    = (set_index idx_frag_s1 st_frag, Raise (ValueError msg)).
Proof.
  apply (@reconcile_malformed_row Index.rowid_order [["123"; "S1"]] [["999"; "S2"]]
           ["only one field"] st_frag (set_index idx_frag_s1 st_frag));
    [reflexivity | discriminate].
Defined.

(** X21.  A row that is applied shows in the index: when the fragment of
    a row did not occur before and the search finds an original, then
    right after that row [get] of that original returns the serial number
    of the row. *)
Theorem reconcile_row_applied `{!Index.Sqlite} (pre : list (list string))
    (f s accession_num : string) (st st1 : State) :
  reconcile ∅ pre st = (st1, Ok ()) ->
  f ∉ fragments pre ->
  Index.search (index st1) ("%" +:+ f +:+ "%") = Ok (Some accession_num) ->
  exists st2,
    reconcile ∅ (pre ++ [[f; s]]) st = (st2, Ok ()) /\
    Index.get (index st2) accession_num = Ok (Some s).
Proof.
  intros Hpre Hf Hs. rewrite (reconcile_app pre ∅ st st1 _ Hpre).
  rewrite (right_id_L ∅ (∪)). cbn [reconcile]. rewrite decide_False by done. rewrite Hs.
  apply search_Some_open in Hs as (Hopen & Hin & _).
  destruct (update_then_get (index st1) accession_num s Hopen Hin) as (idx' & Hupd & Hget).
  rewrite Hupd. eexists. split; [reflexivity | exact Hget].
Qed.

Lemma reconcile_row_applied_witness :
  exists st2,
    @reconcile Index.rowid_order ∅ [["123"; "S1"]] st_frag = (st2, Ok ()) /\
    @Index.get Index.rowid_order (index st2) "A123B" = Ok (Some "S1").
Proof.
  apply (@reconcile_row_applied Index.rowid_order [] "123" "S1" "A123B" st_frag st_frag);
    [reflexivity | apply not_elem_of_empty | reflexivity].
Defined.

(** ** The orchestrator *)

Section OrchestratorFurther.
Context `{!Index.Sqlite}.

Lemma quarantine_file_effect w self filepath ident_dir reason st st' :
  quarantine_file w self filepath ident_dir reason st = Ok st' ->
  index st' = index st /\ saved st' = saved st /\
  copied st' = copied st ++
    [(filepath, path_join (normpath w (quarantine self)) (basename filepath))].
Proof.
  unfold quarantine_file. intros (d & Hd & Hq)%bind_Ok. injection Hq as <-.
  unfold destination in Hd. repeat case_match; simplify_eq.
  unfold ensure_dir. by case_decide.
Qed.

Lemma pseudonymize_only_logs self ds st ds' st' r :
  pseudonymize self ds st = (ds', st', r) -> only_logs st st'.
Proof.
  unfold pseudonymize. intros Hps.
  destruct (getitem ds ACCESSION_NUMBER) as [e|e];
    [| injection Hps as <- <- <-; apply only_logs_refl].
  destruct (Index.get_value (index st) (value e)) as [[serial|]|x];
    try (injection Hps as <- <- <-; apply only_logs_refl).
  pose proof (apply_filter_only_logs self ds st) as Hlogs.
  destruct (apply_filter self ds st) as [[d1 s1] [u|x]]; simpl in Hlogs;
    by injection Hps as <- <- <-.
Qed.

Lemma pseudonymize_Ok self ds st ds' st' serial_num :
  pseudonymize self ds st = (ds', st', Ok serial_num) ->
  exists n v,
    ds' !! ACCESSION_NUMBER = Some (n, v) /\
    Index.get_value (index st) v = Ok (Some serial_num) /\
    forall t n' v', ds' !! t = Some (n', v') -> may_stay self t v'.
Proof.
  unfold pseudonymize, getitem. intros Hps.
  destruct (ds !! ACCESSION_NUMBER) as [[n v]|] eqn:Hds; [| done]. simpl in Hps.
  destruct (Index.get_value (index st) v) as [[serial|]|x] eqn:Hget; try done.
  destruct (apply_filter_lookup self ds st) as (d1 & s1 & Hf & Hd1).
  rewrite Hf in Hps. injection Hps as <- <- <-.
  exists n, v. split; [| split; [done |]].
  - rewrite Hd1, Hds. unfold keeps. by rewrite bool_decide_eq_true_2.
  - intros t n' v'. rewrite Hd1. destruct (ds !! t) as [[n0 v0]|]; [| done].
    destruct (keeps self t v0) eqn:Hk; [| done]. intros [= -> ->]. by apply keeps_spec.
Qed.

Lemma run_effect_refl self st : run_effect self st st.
Proof. split; [done |]. exists []. by rewrite app_nil_r. Qed.

Lemma run_effect_same self st st' :
  Index.table (index st') = Index.table (index st) -> saved st' = saved st ->
  run_effect self st st'.
Proof. intros Ht Hs. split; [done |]. exists []. by rewrite app_nil_r. Qed.

Lemma run_effect_trans self st1 st2 st3 :
  index st2 = index st1 -> run_effect self st1 st2 -> run_effect self st2 st3 ->
  run_effect self st1 st3.
Proof.
  intros Hidx (H1 & l & H2 & H3) (K1 & l' & K2 & K3). split; [congruence |].
  exists (l ++ l'). split; [by rewrite K2, H2, app_assoc |].
  apply Forall_app. split; [done |]. by rewrite <- Hidx.
Qed.

(** The body of the loop of [run]: either it goes on with the index
    untouched, or it returns [False] with the index closed, or it lets an
    exception through; what it has written is a clean output. *)
Lemma run_body_effect w self ident_dir clean_dir ds source_path filename st :
  let f := run_body w self ident_dir clean_dir ds source_path filename st in
  run_effect self st (flow_state f) /\
  match f with
  | Continue st' => index st' = index st
  | Return v st' => v = false /\ Index.closed (index st') = true
  | Throw _ _ => True
  end.
Proof.
  unfold run_body.
  destruct (check_quarantine self ds) as [[[|] reason]|e]; simpl;
    [| | split; [apply run_effect_refl | done]].
  { destruct (quarantine_file _ _ _ _ _ _) as [st'|e] eqn:Hq; simpl;
      [| split; [apply run_effect_refl | done]].
    apply quarantine_file_effect in Hq as (Hi & Hs & _).
    split; [apply run_effect_same; congruence | done]. }
  destruct (pseudonymize self ds st) as [[ds' st'] [serial|e]] eqn:Hps.
  2:{ pose proof (pseudonymize_only_logs _ _ _ _ _ _ Hps) as (Hi & _ & _ & _ & Hs & _).
      assert (He : run_effect self st st') by (apply run_effect_same; congruence).
      destruct e; simpl; try (split; [exact He | done]).
      destruct (quarantine_file _ _ _ _ _ _) as [st''|e] eqn:Hq; simpl;
        [| split; [exact He | done]].
      apply quarantine_file_effect in Hq as (Hi' & Hs' & _).
      split; [apply run_effect_same; congruence | congruence]. }
  pose proof (pseudonymize_only_logs _ _ _ _ _ _ Hps) as (Hi & _ & _ & _ & Hs & _).
  apply pseudonymize_Ok in Hps as (n & v & Hacc & Hget & Hstay).
  assert (He : run_effect self st st') by (apply run_effect_same; congruence).
  destruct (destination _ _ _ _) as [destination_dir|e]; simpl; [| split; [exact He | done]].
  assert (Hens : index (ensure_dir destination_dir st') = index st /\
                 saved (ensure_dir destination_dir st') = saved st).
  { unfold ensure_dir. case_decide; simpl; split; congruence. }
  destruct Hens as [Hi2 Hs2].
  unfold set_value. rewrite Hacc.
  destruct (save_as_ok w _); cbn [flow_state].
  - split; [| exact Hi2]. split; [unfold save_as; cbn [index]; by rewrite Hi2 |].
    eexists [_]. unfold save_as at 1. cbn [saved]. rewrite Hs2. split; [reflexivity |].
    constructor; [| constructor]. cbn [snd]. split; [| split; [| split]].
    + exists n, serial, v. split; [| done].
      do 2 (rewrite lookup_insert_ne by done). by rewrite lookup_insert_eq.
    + rewrite lookup_insert_ne by done. by rewrite lookup_insert_eq.
    + by rewrite lookup_insert_eq.
    + intros t n' v'.
      destruct (decide (t = DE_IDENTIFICATION_METHOD_TAG)) as [->|H1]; [tauto |].
      destruct (decide (t = PATIENT_IDENTITY_REMOVED)) as [->|H2]; [tauto |].
      do 2 (rewrite lookup_insert_ne by done).
      destruct (decide (t = ACCESSION_NUMBER)) as [->|H3].
      * intros _. right. right. by left.
      * rewrite lookup_insert_ne by done. intros Ht. right. right. by eapply Hstay.
  - split; [| done]. apply run_effect_same.
    + unfold close_all, logger. cbn [index Index.close Index.table]. by rewrite Hi2.
    + unfold close_all, logger. cbn [saved]. exact Hs2.
Qed.

Lemma walk_dicoms_file_effect w self ident_dir q root filename st :
  match walk_dicoms_file w self ident_dir q root filename st with
  | GSkip st' => index st' = index st /\ saved st' = saved st
  | GYield _ _ _ st' => st' = st
  | GReturn _ st' =>
      Index.table (index st') = Index.table (index st) /\ saved st' = saved st /\
      Index.closed (index st') = true
  | GRaise _ st' => st' = st
  end.
Proof.
  unfold walk_dicoms_file. destruct (startswith filename "."); [done |].
  destruct (read_file w _); [done | done |].
  destruct q; [| done].
  destruct (quarantine_file _ _ _ _ _ _) as [st'|e] eqn:Hq; [| done].
  apply quarantine_file_effect in Hq as (Hi & Hs & _). done.
Qed.

Lemma for_walk_dicoms_effect w self ident_dir clean_dir files : forall st,
  let f := for_walk_dicoms w self ident_dir true
             (run_body w self ident_dir clean_dir) files st in
  run_effect self st (flow_state f) /\
  match f with
  | Return v st' => v = false /\ Index.closed (index st') = true
  | _ => True
  end.
Proof.
  induction files as [|[root filename] files IH]; intros st.
  { split; [apply run_effect_refl | done]. }
  cbn [for_walk_dicoms].
  pose proof (walk_dicoms_file_effect w self ident_dir true root filename st) as Hw.
  destruct (walk_dicoms_file w self ident_dir true root filename st)
    as [st1|ds source_path fname st1|v st1|e st1].
  - destruct Hw as [Hi Hs]. destruct (IH st1) as [He Hm]. split; [| exact Hm].
    eapply run_effect_trans; [exact Hi | apply run_effect_same; congruence | exact He].
  - subst st1.
    pose proof (run_body_effect w self ident_dir clean_dir ds source_path fname st) as [Hb Hm].
    destruct (run_body w self ident_dir clean_dir ds source_path fname st) as [st2|v st2|e st2];
      simpl in *; [| done | done].
    destruct (IH st2) as [He Hm']. split; [| exact Hm'].
    eapply run_effect_trans; [exact Hm | exact Hb | exact He].
  - destruct Hw as (Ht & Hs & _). split; [by apply run_effect_same | done].
  - subst st1. split; [apply run_effect_refl | done].
Qed.

End OrchestratorFurther.

(** X22.  Whatever the input directory holds and however the run ends,
    every dataset that [run] has written is a clean output: its
    identifier attribute holds a serial number of the index, the two
    audit attributes are set, and every other attribute is the
    identifier, a format-critical attribute or allowed by the whitelist. *)
Theorem run_writes_clean_outputs `{!Index.Sqlite} (w : World) (self : DicomPseudon)
    (ident_dir clean_dir : string) (st : State) :
  exists new,
    saved (run w self ident_dir clean_dir st).1 = saved st ++ new /\
    Forall (fun pd => clean_output self (index st) pd.2) new.
Proof.
  unfold run.
  pose proof (for_walk_dicoms_effect w self ident_dir clean_dir (os_walk w ident_dir) st)
    as [(_ & new & Hs & Hnew) _].
  exists new. split; [| exact Hnew].
  by destruct (for_walk_dicoms _ _ _ _ _ _ _).
Qed.

(** X23.  [run] only reads the index: when it ends, in whatever way, the
    table holds the rows it held at the start. *)
Theorem run_keeps_index_rows `{!Index.Sqlite} (w : World) (self : DicomPseudon)
    (ident_dir clean_dir : string) (st : State) :
  Index.table (index (run w self ident_dir clean_dir st).1) = Index.table (index st).
Proof.
  unfold run.
  pose proof (for_walk_dicoms_effect w self ident_dir clean_dir (os_walk w ident_dir) st)
    as [(Ht & _) _].
  by destruct (for_walk_dicoms _ _ _ _ _ _ _).
Qed.

(** X24.  Whenever [run] returns a value, the connection to the index has
    been closed; when it ends with an exception instead, nothing of the
    kind is promised. *)
Theorem run_returns_closed `{!Index.Sqlite} (w : World) (self : DicomPseudon)
    (ident_dir clean_dir : string) (st st' : State) (b : bool) :
  run w self ident_dir clean_dir st = (st', Ok b) ->
  Index.closed (index st') = true.
Proof.
  unfold run.
  pose proof (for_walk_dicoms_effect w self ident_dir clean_dir (os_walk w ident_dir) st)
    as [_ Hm].
  destruct (for_walk_dicoms _ _ _ _ _ _ _) as [s|v s|e s]; intros [= <- <-]; [done | tauto].
Qed.

Lemma run_returns_closed_witness :
  Index.closed (index (@run Index.rowid_order w_a1 default_self "in" "out" st_s1).1) = true.
Proof.
  apply (@run_returns_closed Index.rowid_order w_a1 default_self "in" "out" st_s1 _ true).
  vm_compute. reflexivity.
Defined.

Lemma for_walk_dicoms_visible `{!Index.Sqlite} w self ident_dir q body files : forall st,
  for_walk_dicoms w self ident_dir q body files st =
  for_walk_dicoms w self ident_dir q body (filter visible files) st.
Proof.
  induction files as [|[root filename] files IH]; intros st; [done |].
  rewrite filter_cons. unfold visible at 1. cbn [snd].
  destruct (decide (startswith filename "." = false)) as [Hv|Hh].
  - cbn [for_walk_dicoms].
    destruct (walk_dicoms_file w self ident_dir q root filename st)
      as [st1|ds source_path fname st1|v st1|e st1]; [apply IH | | done | done].
    destruct (body ds source_path fname st1); [apply IH | done | done].
  - apply not_false_is_true in Hh. cbn [for_walk_dicoms]. unfold walk_dicoms_file.
    rewrite Hh. apply IH.
Qed.

Lemma filter_visible_fmap (top : string) (l : list (string * string)) :
  filter visible ((fun en => (top +:+ en.1, en.2)) <$> l)
  = (fun en => (top +:+ en.1, en.2)) <$> filter visible l.
Proof.
  induction l as [|[sub f] l IH]; [done |].
  rewrite fmap_cons. destruct (decide (visible (sub, f))) as [Hv|Hh].
  - rewrite (filter_cons_True visible (sub, f)) by done.
    rewrite filter_cons_True by exact Hv. by rewrite fmap_cons, IH.
  - rewrite (filter_cons_False visible (sub, f)) by done.
    rewrite filter_cons_False by exact Hh. exact IH.
Qed.

(** X25.  Hidden files do not exist for [run]: the run over a directory
    and the run over the same directory without the files whose name
    starts with a dot end in the same state with the same result. *)
Theorem run_ignores_hidden_files `{!Index.Sqlite} (w : World) (self : DicomPseudon)
    (ident_dir clean_dir : string) (st : State) :
  run w self ident_dir clean_dir st =
  run (with_tree (filter visible (tree w)) w) self ident_dir clean_dir st.
Proof.
  unfold run, os_walk. cbn [with_tree tree].
  rewrite for_walk_dicoms_with_tree.
  rewrite (for_walk_dicoms_visible w self ident_dir true).
  by rewrite filter_visible_fmap.
Qed.

Lemma run_first_file `{!Index.Sqlite} w self ident_dir clean_dir sub filename rest st st1 :
  tree w = (sub, filename) :: rest ->
  after_first_file w self ident_dir clean_dir (ident_dir +:+ sub) filename st = Some st1 ->
  run w self ident_dir clean_dir st = run (with_tree rest w) self ident_dir clean_dir st1.
Proof.
  intros Htree Hfirst. unfold run, os_walk. rewrite Htree.
  cbn [fmap list_fmap fst snd with_tree tree]. rewrite for_walk_dicoms_with_tree.
  cbn [for_walk_dicoms]. unfold after_first_file in Hfirst.
  destruct (walk_dicoms_file w self ident_dir true (ident_dir +:+ sub) filename st)
    as [s|ds sp fn s|v s|e s]; try done.
  - by injection Hfirst as ->.
  - destruct (run_body w self ident_dir clean_dir ds sp fn s); try done.
    by injection Hfirst as ->.
Qed.





(** X28.  A record that passes the rules and resolves, when the string
    [os.path.join(clean_dir, serial_num)] does not start with the path of
    the input directory (the test of [destination]) and the write
    succeeds: the filtered record, with the serial number as its
    identifier and the two audit attributes set, is written to the path
    [os.path.join(os.path.normpath(os.path.join(clean_dir, serial_num)), filename)],
    nothing is copied to quarantine, and [run] goes on with the remaining
    files.  The path is the one the code computes: nothing here says that
    it lies inside the clean directory, and [os.path.join] lets a serial
    number that is an absolute path replace the clean directory. *)
Theorem resolved_record_written `{!Index.Sqlite}
    (w : World) (self : DicomPseudon) (ident_dir clean_dir sub filename : string)
    (rest : list (string * string)) (st st' : State) (ds ds' : Dataset)
    (serial_num : string) :
  tree w = (sub, filename) :: rest ->
  startswith filename "." = false ->
  startswith filename "/" = false ->
  read_file w (path_join (ident_dir +:+ sub) filename) = ReadOk ds ->
  check_quarantine self ds = Ok (false, EmptyString) ->
  pseudonymize self ds st = (ds', st', Ok serial_num) ->
  startswith (path_join clean_dir serial_num) ident_dir = false ->
  let destination_dir := normpath w (path_join clean_dir serial_num) in
  save_as_ok w (path_join destination_dir filename) = true ->
  exists n v,
    ds' !! ACCESSION_NUMBER = Some (n, v) /\
    let st'' := save_as (path_join destination_dir filename)
                  (substituted ds' n serial_num) (ensure_dir destination_dir st') in
    run w self ident_dir clean_dir st = run (with_tree rest w) self ident_dir clean_dir st'' /\
    saved st'' = saved st ++ [(path_join destination_dir filename, substituted ds' n serial_num)] /\
    copied st'' = copied st.
Proof.
  intros Htree Hdot Hslash Hread Hcheck Hps Hdest destination_dir Hsave.
  pose proof (pseudonymize_only_logs _ _ _ _ _ _ Hps) as (_ & _ & _ & Hc & Hs & _).
  destruct (pseudonymize_Ok _ _ _ _ _ _ Hps) as (n & v & Hacc & _).
  exists n, v. split; [done |]. split; [| split].
  - apply (run_first_file w self ident_dir clean_dir sub filename rest st _ Htree).
    unfold after_first_file, walk_dicoms_file. rewrite Hdot, Hread.
    unfold run_body. rewrite Hcheck, Hps. unfold destination.
    rewrite Hdest, source_path_under by done. cbn [negb].
    unfold set_value. rewrite Hacc. fold destination_dir. by rewrite Hsave.
  - unfold save_as, ensure_dir. case_decide; cbn [saved]; by rewrite Hs.
  - unfold save_as, ensure_dir. case_decide; cbn [copied]; by rewrite Hc.
Qed.

Lemma resolved_record_written_witness :
  exists n v,
    (apply_filter default_self ds_a1 st_s1).1.1 !! ACCESSION_NUMBER = Some (n, v) /\
    @run Index.rowid_order w_a1 default_self "in" "out" st_s1 =
    @run Index.rowid_order (with_tree [("/sub", "b2.dcm")] w_a1) default_self "in" "out"
      (save_as "out/S1/a1.dcm"
         (substituted (apply_filter default_self ds_a1 st_s1).1.1 n "S1")
         (ensure_dir "out/S1" st_s1)).
Proof.
  destruct (@resolved_record_written Index.rowid_order w_a1 default_self "in" "out"
              EmptyString "a1.dcm" [("/sub", "b2.dcm")] st_s1 st_s1 ds_a1
              (apply_filter default_self ds_a1 st_s1).1.1 "S1"
              eq_refl eq_refl eq_refl eq_refl eq_refl eq_refl eq_refl eq_refl)
    as (n & v & Hacc & Hrun & _).
  exists n, v. split; [exact Hacc | exact Hrun].
Defined.

(** X29.  When the clean file of a record cannot be written, [run] logs
    the error, closes the index and returns [False] at once: the
    remaining files are not read, and nothing has been written or copied
    for this record. *)
Theorem write_error_ends_run `{!Index.Sqlite}
    (w : World) (self : DicomPseudon) (ident_dir clean_dir sub filename : string)
    (rest : list (string * string)) (st st' : State) (ds ds' : Dataset)
    (serial_num : string) :
  tree w = (sub, filename) :: rest ->
  startswith filename "." = false ->
  startswith filename "/" = false ->
  read_file w (path_join (ident_dir +:+ sub) filename) = ReadOk ds ->
  check_quarantine self ds = Ok (false, EmptyString) ->
  pseudonymize self ds st = (ds', st', Ok serial_num) ->
  startswith (path_join clean_dir serial_num) ident_dir = false ->
  let destination_dir := normpath w (path_join clean_dir serial_num) in
  save_as_ok w (path_join destination_dir filename) = false ->
  let st'' := close_all self
                (logger ERROR ("Error writing file " +:+ path_join destination_dir filename)
                   (ensure_dir destination_dir st')) in
  run w self ident_dir clean_dir st = (st'', Ok false) /\
  saved st'' = saved st /\ copied st'' = copied st /\
  Index.closed (index st'') = true.
Proof.
  intros Htree Hdot Hslash Hread Hcheck Hps Hdest destination_dir Hsave st''.
  pose proof (pseudonymize_only_logs _ _ _ _ _ _ Hps) as (_ & _ & _ & Hc & Hs & _).
  destruct (pseudonymize_Ok _ _ _ _ _ _ Hps) as (n & v & Hacc & _).
  split; [| by unfold st'', close_all, logger, ensure_dir; case_decide].
  unfold run, os_walk. rewrite Htree. cbn [fmap list_fmap fst snd for_walk_dicoms].
  unfold walk_dicoms_file. rewrite Hdot, Hread.
  unfold run_body. rewrite Hcheck, Hps. unfold destination.
  rewrite Hdest, source_path_under by done. cbn [negb].
  unfold set_value. rewrite Hacc. fold destination_dir. by rewrite Hsave.
Qed.

Lemma write_error_ends_run_witness :
  (@run Index.rowid_order w_write_error default_self "in" "out" st_s1).2 = Ok false.
Proof.
  destruct (@write_error_ends_run Index.rowid_order w_write_error default_self "in" "out"
              EmptyString "a1.dcm" [("/sub", "b2.dcm")] st_s1 st_s1 ds_a1
              (apply_filter default_self ds_a1 st_s1).1.1 "S1"
              eq_refl eq_refl eq_refl eq_refl eq_refl eq_refl eq_refl eq_refl)
    as (Hrun & _).
  by rewrite Hrun.
Defined.

(** X30.  When a file of the walk cannot be read, the generator logs the
    error, closes the index and ends; the loop of [run] ends with it, so
    that no later file is read, nothing is written or copied for the
    file, and [run] returns [True]. *)
Theorem read_error_ends_run `{!Index.Sqlite}
    (w : World) (self : DicomPseudon) (ident_dir clean_dir sub filename : string)
    (rest : list (string * string)) (st : State) :
  tree w = (sub, filename) :: rest ->
  startswith filename "." = false ->
  read_file w (path_join (ident_dir +:+ sub) filename) = ReadIOError ->
  let st' := close_all self (close_all self
               (logger ERROR ("Error reading file " +:+ path_join (ident_dir +:+ sub) filename)
                  st)) in
  run w self ident_dir clean_dir st = (st', Ok true) /\
  saved st' = saved st /\ copied st' = copied st /\
  Index.closed (index st') = true.
Proof.
  intros Htree Hdot Hread st'. split; [| done].
  by apply run_read_error with (rest := rest).
Qed.

Lemma read_error_ends_run_witness :
  (@run Index.rowid_order w_read_error default_self "in" "out" st_s1).2 = Ok true.
Proof.
  destruct (@read_error_ends_run Index.rowid_order w_read_error default_self "in" "out"
              EmptyString "a1.dcm" [("/sub", "b2.dcm")] st_s1 eq_refl eq_refl eq_refl)
    as (Hrun & _).
  by rewrite Hrun.
Defined.

(** The two path computations the run properties speak of: the
    destination test is a test on strings, and an absolute second
    argument of [os.path.join] replaces the first. *)
Example destination_is_a_prefix_test :
  destination w_a1 "in/a1.dcm" "in_quarantine" "in"
    = Raise (Exception "Destination directory cannot be inside or equal to source directory") /\
  destination w_a1 "in/a1.dcm" "quarantine" "in" = Ok "quarantine" /\
  path_join "out" "/etc/cron.d" = "/etc/cron.d" /\
  path_join "out" "S1" = "out/S1".
Proof. repeat split. Qed.
